(** * iOS triangulation detector: timeline correlation and heuristic engine

    A shallow embedding of [ios_triangulation_detector/__init__.py]
    (class [IOSFilesystemChecker]) together with the properties of its
    event timeline, sliding-window heuristic, exact matcher and
    detection formatter.

    Modelling conventions.
    - Python strings are [string]; tuples are pairs or constructors.
    - Timestamps are Python floats in the source: finite binary64
      numbers.  Each is held as the rational [Q] it denotes.  The two
      float operations of the source, [cocoa_delta + x] and
      [timestamp_item - timestamp_start], round their exact result to
      the nearest binary64 number, ties to even ([Binary64.add],
      [Binary64.sub]).  A raw value read from an artefact is a binary64
      number or an integer of magnitude at most 2^53, which Python
      converts without rounding.  Adding [cocoa_delta] cannot overflow;
      a difference beyond the largest binary64 number stands for an
      infinity, and it is only ever compared with 300.  Comparisons are
      exact, and key equality in the dictionaries is numeric equality
      ([Qeq_bool]).
    - The two dictionaries of the checker ([timeline], [detections]) map
      a timestamp to a list; they are association lists in insertion
      order, with one entry per key.
    - The local dictionary and set of [run_heuristics] are a [gmap] and a
      [gset]: only membership and size are observed.
    - A raised exception is an explicit result. *)

From Stdlib Require Import QArith Qround Qabs Qpower Lqa Ascii String.
From stdpp Require Import base decidable option list sorting gmap sets strings.

Set Warnings "-clear-no-such-hyp".
Local Open Scope string_scope.
Local Open Scope list_scope.

(** ** Python string operations used by the source *)

Module PyStr.

(** [sub in s] *)
Fixpoint contains (sub s : string) : bool :=
  String.prefix sub s ||
  match s with
  | EmptyString => false
  | String _ s' => contains sub s'
  end.

(** Reversal of an accumulated run of characters. *)
Fixpoint rev_onto (acc s : string) : string :=
  match s with
  | EmptyString => acc
  | String c s' => rev_onto (String c acc) s'
  end.

(** [s.split(sep)] for a non-empty [sep]: a left-to-right scan for
    non-overlapping occurrences.  [skip] counts the characters of an
    occurrence that remain to be dropped, [cur] holds the current
    piece, reversed. *)
Fixpoint split_aux (sep : string) (skip : nat) (cur s : string) : list string :=
  match s with
  | EmptyString => [rev_onto "" cur]
  | String c s' =>
      match skip with
      | S k => split_aux sep k cur s'
      | O =>
          if String.prefix sep s
          then rev_onto "" cur :: split_aux sep (String.length sep - 1) "" s'
          else split_aux sep 0 (String c cur) s'
      end
  end.

Definition split (sep s : string) : list string := split_aux sep 0 "" s.

(** [s.count(c)] for a single character. *)
Fixpoint count_char (c : ascii) (s : string) : nat :=
  match s with
  | EmptyString => 0
  | String d s' => (if Ascii.eqb c d then 1 else 0) + count_char c s'
  end.

(** [sep.join(parts)] *)
Fixpoint join (sep : string) (parts : list string) : string :=
  match parts with
  | [] => ""
  | [p] => p
  | p :: ps => p +:+ sep +:+ join sep ps
  end.

End PyStr.

(** ** Binary64 arithmetic on timestamps *)

Module Binary64.

(** Nearest integer to [y], ties to the even one. *)
Definition rne (y : Q) : Z :=
  let q := Qfloor y in
  match (y - inject_Z q ?= 1 # 2)%Q with
  | Lt => q
  | Gt => (q + 1)%Z
  | Eq => if Z.even q then q else (q + 1)%Z
  end.

(** [floor (log2 a)] for a positive rational [a]. *)
Definition ilog2 (a : Q) : Z :=
  let k := (Z.log2 (Qnum a) - Z.log2 (QDen a))%Z in
  if Qle_bool (2 ^ k) a then k else (k - 1)%Z.

(** The binary64 number nearest to [x], ties to even: a significand of
    53 bits [m] and an exponent [e] of at least -1074. *)
Definition round (x : Q) : Q :=
  if (Qnum x =? 0)%Z then 0%Q
  else
    let a := Qabs x in
    let e := Z.max (ilog2 a - 52) (-1074) in
    let m := rne (a * 2 ^ (- e)) in
    let v := (inject_Z m * 2 ^ e)%Q in
    Qred (if (Qnum x <? 0)%Z then - v else v).

(** [x + y] and [x - y] on floats. *)
Definition add (x y : Q) : Q := round (x + y).

Definition sub (x y : Q) : Q := round (x - y).

End Binary64.

(** ** Events, windows and the two dictionaries *)

(** An event is the tuple [(event_type, detail)]. *)
Abbreviation event := (string * string)%type.

(** An element of the expanded timeline: [(timestamp, event)]. *)
Abbreviation stamped := (Q * event)%type.

Abbreviation window := (list stamped).

(** A detection is one of the two tuple shapes the program builds:
    [(tag, source, identifier)] and [(tag, event_window)]. *)
Inductive detection : Type :=
| Det3 (tag source ident : string)
| Det2 (tag : string) (w : window).

Definition det_tag (d : detection) : string :=
  match d with
  | Det3 t _ _ => t
  | Det2 t _ => t
  end.

(** [append_map]: [if not timestamp in map: map[timestamp] = []] then
    [map[timestamp].append(item)]. *)
Fixpoint append_map {V : Type} (timestamp : Q) (item : V) (map : list (Q * list V))
  : list (Q * list V) :=
  match map with
  | [] => [(timestamp, [item])]
  | (k, vs) :: map' =>
      if Qeq_bool k timestamp
      then (k, vs ++ [item]) :: map'
      else (k, vs) :: append_map timestamp item map'
  end.

(** A dictionary holds one entry per key. *)
Fixpoint keys_distinct {V : Type} (map : list (Q * list V)) : Prop :=
  match map with
  | [] => True
  | (k, _) :: map' => Forall (λ kv, ¬ (k == kv.1)%Q) map' ∧ keys_distinct map'
  end.

Record checker : Type := Checker {
  timeline : list (Q * list event);
  detections : list (Q * list detection)
}.

(** [__init__] *)
Definition init : checker := {| timeline := []; detections := [] |}.

Definition append_timeline (timestamp : Q) (item : event) (self : checker) : checker :=
  {| timeline := append_map timestamp item (timeline self);
     detections := detections self |}.

Definition append_detection (timestamp : Q) (item : detection) (self : checker) : checker :=
  {| timeline := timeline self;
     detections := append_map timestamp item (detections self) |}.

(** ** [run_heuristics] *)

Definition sms_marker : string := "Library/SMS/Attachments/".

Definition file_types : list string := ["M"; "C"; "B"].

Definition net_types : list string :=
  ["NetTimestamp"; "NetUsage"; "NetFirst"; "NetTimestamp2"].

(** [x in [..]] on a list of strings. *)
Definition in_list (x : string) (l : list string) : bool :=
  existsb (String.eqb x) l.

(** [path.split('Library/SMS/Attachments/')[1].split('/')] *)
Definition path_parts (path : string) : list string :=
  PyStr.split "/" (nth 1 (PyStr.split sms_marker path) "").

(** State of the classification loop: [sms_attachment_directories] and
    [event_classes]. *)
Record loop_state : Type := LoopState {
  sms_attachment_directories : gmap string (gset string);
  event_classes : gset string
}.

(** One iteration of the [for] loop; [None] is the early [return]. *)
Definition heuristics_step (st : loop_state) (item : stamped) : option loop_state :=
  let '(_, (event_type, path)) := item in
  let dirs := sms_attachment_directories st in
  let classes := event_classes st in
  if in_list event_type file_types then
    if PyStr.contains sms_marker path then
      if (length (path_parts path) <=? 2)%nat then
        Some (LoopState (<[path := {[event_type]} ∪ default ∅ (dirs !! path)]> dirs)
                        classes)
      else None
    else Some (LoopState dirs ({["file"]} ∪ classes))
  else if in_list event_type net_types then
    Some (LoopState dirs ({["net"]} ∪ classes))
  else if String.eqb event_type "LocationTimeStopped" then
    Some (LoopState dirs ({["location"]} ∪ classes))
  else Some st.

Fixpoint heuristics_loop (st : loop_state) (w : window) : option loop_state :=
  match w with
  | [] => Some st
  | item :: w' =>
      match heuristics_step st item with
      | None => None
      | Some st' => heuristics_loop st' w'
      end
  end.

(** The second loop: every tracked directory has both ['M'] and ['C']. *)
Definition dirs_complete (dirs : gmap string (gset string)) : bool :=
  bool_decide (map_Forall (λ _ v, "M" ∈ v ∧ "C" ∈ v) dirs).

(** What a call of [run_heuristics] returns: Python's [None] or [False]. *)
Inductive retval : Type := RetNone | RetFalse.

(** [run_heuristics]; the outer [None] is the [IndexError] of
    [event_window[0]] on an empty window. *)
Definition run_heuristics (event_window : window) (self : checker)
  : option (retval * checker) :=
  match event_window with
  | [] => None
  | (timestamp_start, _) :: _ =>
      match heuristics_loop (LoopState ∅ ∅) event_window with
      | None => Some (RetNone, self)
      | Some st =>
          let dirs := sms_attachment_directories st in
          if negb (dirs_complete dirs) then Some (RetFalse, self)
          else
            let classes :=
              if (0 <? size dirs)%nat then {["sms"]} ∪ event_classes st
              else event_classes st in
            let detection_threshold := 2%nat in
            if (detection_threshold <=? size classes)%nat
            then Some (RetNone,
                       append_detection timestamp_start
                         (Det2 "heuristics" event_window) self)
            else Some (RetNone, self)
      end
  end.

(** ** Collectors

    The collectors read the captured filesystem.  What they read is an
    input of the model: the result of each [os.stat], of the property
    list loads and of the database query. *)

(** The three fields of [os.stat] the code uses; [st_birthtime] is
    absent on platforms without it. *)
Record stat_result : Type := Stat {
  st_mtime : Q;
  st_ctime : Q;
  st_birthtime : option Q
}.

(** One directory yielded by [os.walk]: the relative path computed from
    [root], and the result of [os.stat(root)], [None] when it raises. *)
Record walk_entry : Type := WalkEntry {
  walk_rel_path : string;
  walk_stat : option stat_result
}.

(** One of the three preference files: whether [os.path.exists] holds,
    the result of [os.stat] ([None] when it raises) and the relative
    path computed from the file's path. *)
Record plist_probe : Type := PlistProbe {
  probe_exists : bool;
  probe_stat : option stat_result;
  probe_rel_path : string
}.

(** A row of the usage database query, in column order.  [None] is SQL
    [NULL]. *)
Record db_row : Type := DbRow {
  row_first_timestamp : option Q;
  row_proc_timestamp : option Q;
  row_procname : option string;
  row_bundlename : option string;
  row_pk : option Z;
  row_timestamp : option Q
}.

(** Everything [scan_filesystem] reads from [root_path]. *)
Record capture : Type := Capture {
  sms_attachments_isdir : bool;
  sms_walk : list walk_entry;
  system_plists : list plist_probe;
  (** entries of [netUsageBaseline], each with the Unix timestamp of its
      first element ([None] when computing it raises); [None] when the
      file or the key is absent or the load fails *)
  osanalytics_baseline : option (list (string * option Q));
  (** rows yielded by the query; [None] when the file is absent or
      cannot be opened *)
  datausage_rows : option (list db_row);
  (** entries of the location clients list with the raw value under
      ['LocationTimeStopped'], when the key is present *)
  locationd_clients : option (list (string * option Q))
}.

(** The three events recorded for a path that was stat'ed. *)
Definition append_stat_events (s : stat_result) (rel_path : string) (self : checker)
  : checker :=
  let mtime := st_mtime s in
  let ctime := st_ctime s in
  let birthtime := default ctime (st_birthtime s) in
  append_timeline birthtime ("B", rel_path)
    (append_timeline ctime ("C", rel_path)
       (append_timeline mtime ("M", rel_path) self)).

Definition _check_sms_attachments (walk : list walk_entry) (self : checker) : checker :=
  foldl (λ self e,
           if (3 <=? PyStr.count_char "/" (walk_rel_path e))%nat then self
           else match walk_stat e with
                | Some s => append_stat_events s (walk_rel_path e) self
                | None => self
                end) self walk.

Definition _check_system_plists (plists : list plist_probe) (self : checker) : checker :=
  foldl (λ self p,
           if probe_exists p then
             match probe_stat p with
             | Some s => append_stat_events s (probe_rel_path p) self
             | None => self
             end
           else self) self plists.

(** A statement sequence inside [try]: it either runs to its end or
    raises; the changes made before the [raise] stay. *)
Inductive exec : Type :=
| Normal (self : checker)
| Raised (self : checker).

Definition exec_state (x : exec) : checker :=
  match x with Normal s => s | Raised s => s end.

(** [for x in l: body] where [body] may raise. *)
Fixpoint for_each {A : Type} (body : A → checker → exec) (l : list A) (self : checker)
  : exec :=
  match l with
  | [] => Normal self
  | x :: l' =>
      match body x self with
      | Normal self' => for_each body l' self'
      | Raised self' => Raised self'
      end
  end.

Definition process_IOCs_exact : list string := ["BackupAgent"].

Definition process_IOCs_implicit : list string :=
  ["nehelper"; "com.apple.WebKit.WebContent";
   "powerd/com.apple.datausage.diagnostics";
   "lockdownd/com.apple.datausage.security"].

Definition location_client_IOCs : list string :=
  ["com.apple.locationd.bundle-/System/Library/LocationBundles/IonosphereHarvest.bundle";
   "com.apple.locationd.bundle-/System/Library/LocationBundles/WRMLinkSelection.bundle"].

Definition cocoa_delta : Q := 978307200.

(** [cocoa_delta + x], a float addition. *)
Definition cocoa_to_unix (x : Q) : Q := Binary64.add cocoa_delta x.

(** Sequencing of statements that may raise. *)
Definition andthen (x : exec) (k : checker → exec) : exec :=
  match x with
  | Normal s => k s
  | Raised s => Raised s
  end.

(** [self.append_detection(ts, item)] where evaluating the timestamp
    expression [ts] may raise ([None]). *)
Definition append_detection_at (ts : option Q) (item : detection) (self : checker)
  : exec :=
  match ts with
  | Some t => Normal (append_detection t item self)
  | None => Raised self
  end.

Definition append_timeline_at (ts : option Q) (item : event) (self : checker)
  : exec :=
  match ts with
  | Some t => Normal (append_timeline t item self)
  | None => Raised self
  end.

(** [cocoa_delta + v], which raises when the column [v] is [None]. *)
Definition cocoa (v : option Q) : option Q := cocoa_to_unix <$> v.

(** Body of the loop over [netUsageBaseline]. *)
Definition baseline_step (entry : string * option Q) (self : checker) : exec :=
  let '(package, ts) := entry in
  andthen
    (if in_list package process_IOCs_exact
     then append_detection_at ts (Det3 "exact" "NetUsage" package) self
     else Normal self) (λ self,
  if in_list package process_IOCs_implicit || in_list package process_IOCs_exact
  then append_timeline_at ts ("NetUsage", package) self
  else Normal self).

(** Body of the loop over the rows of the usage database. *)
Definition datausage_step (row : db_row) (self : checker) : exec :=
  match row_procname row with
  | None => Normal self
  | Some procname =>
      if in_list procname process_IOCs_exact then
        andthen (append_detection_at (cocoa (row_first_timestamp row))
                   (Det3 "exact" "NetFirst" procname) self) (λ self,
        andthen (append_detection_at (cocoa (row_proc_timestamp row))
                   (Det3 "exact" "NetTimestamp" procname) self) (λ self,
        match row_timestamp row with
        | Some t => append_detection_at (cocoa (Some t))
                      (Det3 "exact" "NetTimestamp2" procname) self
        | None => Normal self
        end))
      else if in_list procname process_IOCs_implicit then
        andthen (append_timeline_at (cocoa (row_first_timestamp row))
                   ("NetFirst", procname) self) (λ self,
        andthen (append_timeline_at (cocoa (row_proc_timestamp row))
                   ("NetTimestamp", procname) self) (λ self,
        match row_timestamp row with
        | Some t => append_timeline_at (cocoa (Some t)) ("NetTimestamp2", procname) self
        | None => Normal self
        end))
      else Normal self
  end.

(** Body of the loop over the location clients. *)
Definition location_step (entry : string * option Q) (self : checker) : exec :=
  let '(package, stopped) := entry in
  if in_list package location_client_IOCs then
    match stopped with
    | Some raw =>
        Normal (append_timeline (cocoa_to_unix raw) ("LocationTimeStopped", package) self)
    | None => Normal self
    end
  else Normal self.

(** [try: for ...] with the exception caught and reported. *)
Definition try_for_each {A : Type} (body : A → checker → exec) (src : option (list A))
    (self : checker) : checker :=
  match src with
  | Some l => exec_state (for_each body l self)
  | None => self
  end.

Definition _check_analytics_data (inp : capture) (self : checker) : checker :=
  let self := try_for_each baseline_step (osanalytics_baseline inp) self in
  let self := try_for_each datausage_step (datausage_rows inp) self in
  try_for_each location_step (locationd_clients inp) self.

(** ** [scan_filesystem] *)

(** [sorted(self.timeline)]: the keys in ascending order. *)
Fixpoint insert_key (k : Q) (l : list Q) : list Q :=
  match l with
  | [] => [k]
  | x :: l' => if Qle_bool k x then k :: l else x :: insert_key k l'
  end.

Definition sorted_keys {V : Type} (map : list (Q * list V)) : list Q :=
  foldr insert_key [] (fst <$> map).

(** [map[k]] for a key [k] of [map]. *)
Fixpoint getitem {V : Type} (k : Q) (map : list (Q * list V)) : list V :=
  match map with
  | [] => []
  | (k', vs) :: map' => if Qeq_bool k' k then vs else getitem k map'
  end.

Definition expand_timeline (tl : list (Q * list event)) : window :=
  flat_map (λ k, (λ item, (k, item)) <$> getitem k tl) (sorted_keys tl).

Definition events_max : nat := 10.

Definition time_delta_max : Q := 60 * 5.

(** [a > b] on timestamps. *)
Definition Qgtb (a b : Q) : bool := negb (Qle_bool a b).

(** The inner loop over [j]: [todo] holds the events from index [j] on. *)
Fixpoint trim_loop (timestamp_start : Q) (event_window : window) (j : nat)
    (todo : window) : window :=
  match todo with
  | [] => event_window
  | (timestamp_item, _) :: todo' =>
      if Qgtb (Binary64.sub timestamp_item timestamp_start) time_delta_max
      then take j event_window
      else trim_loop timestamp_start event_window (S j) todo'
  end.

Definition trim (timestamp_start : Q) (event_window : window) : window :=
  trim_loop timestamp_start event_window 0 event_window.

(** The window handed to [run_heuristics] at index [i]; [None] is the
    [IndexError] of [expanded_timeline[i]]. *)
Definition window_at (expanded_timeline : window) (i : nat) : option window :=
  match expanded_timeline !! i with
  | None => None
  | Some (timestamp_start, _) =>
      Some (trim timestamp_start (take events_max (drop i expanded_timeline)))
  end.

(** [range(len(expanded_timeline) - events_max)] *)
Definition anchor_indices (expanded_timeline : window) : list nat :=
  seq 0 (length expanded_timeline - events_max).

Inductive exn : Type :=
| FileNotFoundError
| IndexError
| ValueError
| RuntimeError (msg : string).

Fixpoint scan_loop (expanded_timeline : window) (indices : list nat) (self : checker)
  : exn + checker :=
  match indices with
  | [] => inr self
  | i :: rest =>
      match window_at expanded_timeline i with
      | None => inl IndexError
      | Some event_window =>
          match run_heuristics event_window self with
          | None => inl IndexError
          | Some (_, self') => scan_loop expanded_timeline rest self'
          end
      end
  end.

(** [scan_filesystem]: the checker after the call, whose [detections]
    is the value returned, or the exception raised. *)
Definition scan_filesystem (inp : capture) (self : checker) : exn + checker :=
  if negb (sms_attachments_isdir inp) then inl FileNotFoundError
  else
    let self := _check_sms_attachments (sms_walk inp) self in
    let self := _check_system_plists (system_plists inp) self in
    let self := _check_analytics_data inp self in
    let expanded_timeline := expand_timeline (timeline self) in
    scan_loop expanded_timeline (anchor_indices expanded_timeline) self.

(** ** [detection_to_string] *)

Definition nl : string := String (ascii_of_nat 10) "".

Inductive fmt_result : Type :=
| FmtStr (s : string)
| FmtNone
| FmtRaise (e : exn).

(** The loop over the events of a window, [result] being the string
    built so far. *)
Fixpoint format_events (result : string) (w : window) : fmt_result :=
  match w with
  | [] => FmtStr result
  | (_, (event_type, detail)) :: w' =>
      if String.eqb event_type "M" then
        format_events (result +:+ nl +:+ " * file modification: " +:+ detail) w'
      else if String.eqb event_type "C" then
        format_events (result +:+ nl +:+ " * file attribute change: " +:+ detail) w'
      else if String.eqb event_type "B" then
        format_events (result +:+ nl +:+ " * file birth: " +:+ detail) w'
      else if String.eqb event_type "LocationTimeStopped" then
        format_events (result +:+ nl +:+ " * location service stopped: " +:+ detail) w'
      else if in_list event_type net_types then
        format_events (result +:+ nl +:+ " * traffic by process " +:+ detail) w'
      else FmtRaise (RuntimeError ("Unknown detection event " +:+ event_type))
  end.

Definition heuristics_header : string := "Suspicious combination of events: ".

Definition detection_to_string (d : detection) : fmt_result :=
  if String.eqb (det_tag d) "exact" then
    match d with
    | Det3 _ source ident => FmtStr ("Exact match by " +:+ source +:+ " : " +:+ ident)
    | Det2 _ _ => FmtRaise IndexError
    end
  else if String.eqb (det_tag d) "heuristics" then
    match d with
    | Det2 _ w => format_events heuristics_header w
    | Det3 _ source _ =>
        (* iterating over a string: its characters do not unpack *)
        if String.eqb source "" then FmtStr heuristics_header else FmtRaise ValueError
    end
  else FmtNone.

(** ** Declarative reading of a window

    The classes of the heuristic, read off the events of a window
    without running the loop. *)

Definition is_file_event (e : event) : bool := in_list e.1 file_types.

(** A file event under the attachment store. *)
Definition is_attachment_event (e : event) : bool :=
  is_file_event e && PyStr.contains sms_marker e.2.

(** An attachment event more than two components below the marker. *)
Definition is_deep_event (e : event) : bool :=
  is_attachment_event e && (2 <? length (path_parts e.2))%nat.

Definition is_generic_file_event (e : event) : bool :=
  is_file_event e && negb (PyStr.contains sms_marker e.2).

Definition is_net_event (e : event) : bool :=
  negb (is_file_event e) && in_list e.1 net_types.

Definition is_location_event (e : event) : bool :=
  negb (is_file_event e) && negb (in_list e.1 net_types)
  && String.eqb e.1 "LocationTimeStopped".

Definition has_event (P : event → bool) (w : window) : bool :=
  existsb (λ x, P x.2) w.

Definition window_disqualified (w : window) : bool := has_event is_deep_event w.

(** Some event of the window is [(t, p)]. *)
Definition seen (t p : string) (w : window) : bool :=
  has_event (λ e, String.eqb e.1 t && String.eqb e.2 p) w.

(** Every attachment path of the window has both an ['M'] and a ['C']
    event in the window. *)
Definition attachments_complete (w : window) : bool :=
  forallb (λ x, negb (is_attachment_event x.2)
                || (seen "M" x.2.2 w && seen "C" x.2.2 w)) w.

Definition b2n (b : bool) : nat := if b then 1 else 0.

(** Number of classes among file, net and location. *)
Definition other_class_count (w : window) : nat :=
  b2n (has_event is_generic_file_event w) + b2n (has_event is_net_event w)
  + b2n (has_event is_location_event w).

(** Number of classes among file, net, location and sms, for a window
    that is neither disqualified nor incomplete. *)
Definition class_count (w : window) : nat :=
  other_class_count w + b2n (has_event is_attachment_event w).

(** Total number of detections held by a registry. *)
Definition registry_size {V : Type} (map : list (Q * list V)) : nat :=
  sum_list ((λ kv, length kv.2) <$> map).

(** ** The classification loop in closed form *)

(** The class a single event adds to [event_classes]. *)
Definition class_of (e : event) : gset string :=
  if is_generic_file_event e then {["file"]}
  else if is_net_event e then {["net"]}
  else if is_location_event e then {["location"]}
  else ∅.

(** The update a single event makes to [sms_attachment_directories]. *)
Definition track (e : event) (dirs : gmap string (gset string))
  : gmap string (gset string) :=
  if is_attachment_event e
  then <[e.2 := {[e.1]} ∪ default ∅ (dirs !! e.2)]> dirs
  else dirs.

(** The set [event_classes] holds after the first loop, from the three
    flags of the window. *)
Definition classes_of_flags (file net location : bool) : gset string :=
  (if file then {["file"]} else ∅) ∪ (if net then {["net"]} else ∅)
  ∪ (if location then {["location"]} else ∅).

(** ** Windows with incomplete attachment evidence *)

(** Some tracked attachment directory of the window has an 'M' event
    but no 'C' event in the window. *)
Definition modified_without_attr_change (w : window) : Prop :=
  ∃ p, seen "M" p w = true
       ∧ PyStr.contains sms_marker p = true
       ∧ (length (path_parts p) <= 2)%nat
       ∧ seen "C" p w = false.

(** [run_heuristics] records a heuristic detection for the window. *)
Definition emits_heuristic (w : window) (self : checker) : Prop :=
  ∃ r self', run_heuristics w self = Some (r, self')
             ∧ registry_size (detections self')
               = S (registry_size (detections self)).

(** The sentence of the specification: such a window may still be
    detected through its other classes. *)
Definition incomplete_still_detects (w : window) (self : checker) : Prop :=
  modified_without_attr_change w →
  (2 <= other_class_count w)%nat →
  emits_heuristic w self.

(** The sentence of the specification on the detection rule: a window
    that is not disqualified and holds at least two classes is recorded.
    The classes file, net and location are counted, which are present
    whether or not the sms class is asserted. *)
Definition undisqualified_detects (w : window) (self : checker) : Prop :=
  window_disqualified w = false →
  (2 <= other_class_count w)%nat →
  emits_heuristic w self.

(** ** The span of a window *)



(** ** Order of the expanded timeline *)


(** ** Known categories and the lines of the formatter *)

Definition known_categories : list string :=
  ["M"; "C"; "B"; "LocationTimeStopped";
   "NetTimestamp"; "NetUsage"; "NetFirst"; "NetTimestamp2"].

Definition known_category (t : string) : bool := in_list t known_categories.

(** The phrase of each known category. *)
Definition category_phrase (t : string) : string :=
  if String.eqb t "M" then " * file modification: "
  else if String.eqb t "C" then " * file attribute change: "
  else if String.eqb t "B" then " * file birth: "
  else if String.eqb t "LocationTimeStopped" then " * location service stopped: "
  else " * traffic by process ".

(** The line of one event: a newline, the phrase of its category and
    its detail. *)
Definition event_line (e : event) : string :=
  nl +:+ category_phrase e.1 +:+ e.2.

Definition concat_lines (lines : list string) : string :=
  foldr String.append "" lines.

(** The first event of unknown category, if any. *)
Fixpoint first_unknown (w : window) : option string :=
  match w with
  | [] => None
  | (_, (t, _)) :: w' => if known_category t then first_unknown w' else Some t
  end.

(** ** Keys under which the exact matcher stores *)




(** ** What the scan puts in the timeline and in the registry *)

Definition known_events (w : window) : Prop :=
  Forall (λ x, known_category x.2.1 = true) w.

(** The two kinds of detection the scan records. *)
Inductive renderable : detection → Prop :=
| renderable_exact source ident : renderable (Det3 "exact" source ident)
| renderable_heuristics w : known_events w → renderable (Det2 "heuristics" w).

(** A property of every item stored in a dictionary. *)
Definition all_entries {V : Type} (P : V → Prop) (m : list (Q * list V)) : Prop :=
  Forall (λ kv, Forall P kv.2) m.

Definition scan_invariant (self : checker) : Prop :=
  all_entries (λ e : event, known_category e.1 = true) (timeline self)
  ∧ all_entries renderable (detections self).

(** ** Sample inputs *)

Definition deep_window : window :=
  [ (100%Q, ("M", "Preferences/com.apple.ImageIO.plist"));
    (130%Q, ("NetUsage", "nehelper"));
    (160%Q, ("C", "private/var/mobile/Library/SMS/Attachments/ff/15/IMG_0001.jpeg")) ].

Definition incomplete_window : window :=
  [ (100%Q, ("M", "private/var/mobile/Library/SMS/Attachments/ff/15"));
    (130%Q, ("M", "Preferences/com.apple.ImageIO.plist"));
    (160%Q, ("NetUsage", "nehelper")) ].

Definition two_class_window : window :=
  [ (100%Q, ("M", "Preferences/com.apple.ImageIO.plist"));
    (130%Q, ("NetUsage", "nehelper")) ].

Definition one_class_window : window :=
  [ (100%Q, ("NetFirst", "nehelper"));
    (130%Q, ("NetUsage", "nehelper")) ].

Definition sample_timeline : list (Q * list event) :=
  [ (1000%Q, [("M", "Preferences/com.apple.ImageIO.plist");
              ("C", "Preferences/com.apple.ImageIO.plist")]);
    (1400%Q, [("NetUsage", "nehelper")]);
    (1010%Q, [("NetFirst", "nehelper"); ("NetTimestamp", "nehelper")]);
    (1020%Q, [("B", "Preferences/com.apple.ImageIO.plist")]);
    (1500%Q, [("M", "a"); ("C", "a"); ("B", "a"); ("M", "b"); ("C", "b"); ("B", "b")]) ].

Definition one_stat (t : Q) : stat_result :=
  {| st_mtime := t; st_ctime := (t + 10)%Q; st_birthtime := None |}.

(** A capture whose timeline holds exactly [events_max] events, all
    within 100 seconds, of the classes file, net and location. *)
Definition ten_event_capture : capture :=
  {| sms_attachments_isdir := true;
     sms_walk := [];
     system_plists :=
       [ PlistProbe true (Some (one_stat 978308200%Q))
           "Preferences/com.apple.locationd.StatusBarIconManager.plist";
         PlistProbe true (Some (one_stat 978308220%Q))
           "Preferences/com.apple.imservice.ids.FaceTime.plist";
         PlistProbe false None "Preferences/com.apple.ImageIO.plist" ];
     osanalytics_baseline := None;
     datausage_rows :=
       Some [ DbRow (Some 1040%Q) (Some 1050%Q) (Some "nehelper") None (Some 7%Z)
                (Some 1060%Q) ];
     locationd_clients :=
       Some [ ("com.apple.locationd.bundle-/System/Library/LocationBundles/IonosphereHarvest.bundle",
               Some 1070%Q) ] |}.

Definition unknown_category_window : window :=
  [ (100%Q, ("M", "Preferences/com.apple.ImageIO.plist"));
    (130%Q, ("Reboot", "launchd")) ].


(** A capture with a 'BackupAgent' usage row and eleven timeline events
    of two classes within five minutes. *)
Definition detected_capture : capture :=
  {| sms_attachments_isdir := true;
     sms_walk := [];
     system_plists :=
       [ PlistProbe true (Some (one_stat 978308200%Q))
           "Preferences/com.apple.locationd.StatusBarIconManager.plist";
         PlistProbe true (Some (one_stat 978308220%Q))
           "Preferences/com.apple.imservice.ids.FaceTime.plist";
         PlistProbe true (Some (one_stat 978308240%Q))
           "Preferences/com.apple.ImageIO.plist" ];
     osanalytics_baseline := None;
     datausage_rows :=
       Some [ DbRow (Some 1040%Q) (Some 1050%Q) (Some "nehelper") None (Some 7%Z)
                None;
              DbRow (Some 1040%Q) (Some 1050%Q) (Some "BackupAgent") None (Some 8%Z)
                None ];
     locationd_clients := None |}.

(** ** The outcome of [run_heuristics], read off the window *)

(** The window is recorded as a detection. *)
Definition detects (w : window) : bool :=
  negb (window_disqualified w) && attachments_complete w
  && (2 <=? class_count w)%nat.

(** The value returned: [False] exactly when the loop ran to its end and
    some tracked directory lacks its 'M' or its 'C' event. *)
Definition returned_value (w : window) : retval :=
  if window_disqualified w then RetNone
  else if attachments_complete w then RetNone
  else RetFalse.

(** Two windows hold the same events, whatever their order, their
    timestamps and the number of times each occurs. *)
Definition same_events (w1 w2 : window) : Prop :=
  ∀ e : event, e ∈ w1.*2 ↔ e ∈ w2.*2.

(** Half the spacing of the binary64 numbers between 256 and 512,
    2^-45: a difference that exceeds 300 by no more rounds to 300. *)
Definition span_slack : Q := 1 # 35184372088832.


(** ** The appends a scan performs *)

(** The appends of the collectors: a timeline event of a known
    category, or an exact detection of 'BackupAgent' from one of the
    network sources. *)
Inductive collect_step : checker → checker → Prop :=
| collect_event t e self :
    known_category e.1 = true →
    collect_step self (append_timeline t e self)
| collect_exact t source self :
    source ∈ net_types →
    collect_step self (append_detection t (Det3 "exact" source "BackupAgent") self).

(** The appends of the sliding-window loop over [expanded]: the window
    of an anchor that [detects] accepts, under the anchor's timestamp. *)
Inductive heuristic_step (expanded : window) : checker → checker → Prop :=
| heuristic_hit i w anchor e self :
    i ∈ anchor_indices expanded →
    window_at expanded i = Some w →
    head w = Some (anchor, e) →
    detects w = true →
    heuristic_step expanded self
      (append_detection anchor (Det2 "heuristics" w) self).

(** The checker after the three collectors. *)
Definition collected (inp : capture) (self : checker) : checker :=
  _check_analytics_data inp
    (_check_system_plists (system_plists inp)
       (_check_sms_attachments (sms_walk inp) self)).

(** A detection a scan may hold under key [k]: an exact detection of
    'BackupAgent', or the accepted window of an anchor of [expanded]
    whose timestamp is [k]. *)
Inductive recorded (expanded : window) (k : Q) : detection → Prop :=
| recorded_exact source :
    source ∈ net_types →
    recorded expanded k (Det3 "exact" source "BackupAgent")
| recorded_hit i w anchor e :
    i ∈ anchor_indices expanded →
    window_at expanded i = Some w →
    head w = Some (anchor, e) →
    (k == anchor)%Q →
    detects w = true →
    recorded expanded k (Det2 "heuristics" w).

(** A property of every item of a dictionary, given its key. *)
Definition all_keyed {V : Type} (P : Q → V → Prop) (m : list (Q * list V)) : Prop :=
  ∀ k ds d, (k, ds) ∈ m → d ∈ ds → P k d.

(** ** [main]

    The command line, the file system and the clock are inputs of the
    model; what is printed is kept line by line, by kind and without
    the colour codes. *)

Inductive out_line : Type :=
| Usage
| NotADirectory (root_path : string)
| MissingDirsWarning (missing_dirs : list string)
| ScanningBanner (root_path : string)
| ScanError (e : exn)
| TracesHeader
| Detected (dt explanation : string)
| Suspicion (dt explanation : string)
| NoTraces.

(** An exception that leaves [main]. *)
Inductive main_exn : Type :=
| ArgvIndexError
| DatetimeError
| FormatError (e : exn)
| ConcatTypeError.

(** How [main] ends: it returns, calls [sys.exit], or an exception
    escapes. *)
Inductive exit_status : Type :=
| Returns
| SysExit (code : Z)
| Uncaught (e : main_exn).

(** [sys.argv], [os.path.isdir(root_path)], the entries of [ios_dirs]
    that are not directories, and what the scan reads. *)
Record invocation : Type := Invocation {
  argv : list string;
  root_isdir : bool;
  missing_dirs : list string;
  root_capture : capture
}.

(** The inner loop over [results[k]].  [fromtimestamp k] is the text of
    [datetime.fromtimestamp(k, tz=timezone.utc)], [None] when it
    raises. *)
Fixpoint report_key (fromtimestamp : Q → option string) (k : Q)
    (ds : list detection) (out : list out_line)
  : list out_line * option main_exn :=
  match ds with
  | [] => (out, None)
  | detection :: ds' =>
      match fromtimestamp k with
      | None => (out, Some DatetimeError)
      | Some dt =>
          match detection_to_string detection with
          | FmtRaise e => (out, Some (FormatError e))
          | FmtStr explanation =>
              if String.eqb (det_tag detection) "exact" then
                report_key fromtimestamp k ds' (out ++ [Detected dt explanation])
              else if String.eqb (det_tag detection) "heuristics" then
                report_key fromtimestamp k ds' (out ++ [Suspicion dt explanation])
              else report_key fromtimestamp k ds' out
          | FmtNone =>
              if String.eqb (det_tag detection) "exact"
                 || String.eqb (det_tag detection) "heuristics"
              then (out, Some ConcatTypeError)
              else report_key fromtimestamp k ds' out
          end
      end
  end.

(** The outer loop over [sorted(results)]. *)
Fixpoint report_keys (fromtimestamp : Q → option string)
    (results : list (Q * list detection)) (keys : list Q) (out : list out_line)
  : list out_line * option main_exn :=
  match keys with
  | [] => (out, None)
  | k :: keys' =>
      match report_key fromtimestamp k (getitem k results) out with
      | (out', None) => report_keys fromtimestamp results keys' out'
      | (out', Some e) => (out', Some e)
      end
  end.

(** [main]: the lines printed and how it ends. *)
Definition main (fromtimestamp : Q → option string) (inv : invocation)
  : list out_line * exit_status :=
  if (length (argv inv) =? 1)%nat then ([Usage], Returns)
  else
    match argv inv !! 1%nat with
    | None => ([], Uncaught ArgvIndexError)
    | Some root_path =>
        if negb (root_isdir inv) then ([NotADirectory root_path], Returns)
        else
          let out :=
            match missing_dirs inv with
            | [] => []
            | _ :: _ => [MissingDirsWarning (missing_dirs inv)]
            end in
          let out := out ++ [ScanningBanner root_path] in
          match scan_filesystem (root_capture inv) init with
          | inl e => (out ++ [ScanError e], Returns)
          | inr checker =>
              let results := detections checker in
              if (0 <? length results)%nat then
                match report_keys fromtimestamp results (sorted_keys results)
                        (out ++ [TracesHeader]) with
                | (out', None) => (out', SysExit 2)
                | (out', Some e) => (out', Uncaught e)
                end
              else (out ++ [NoTraces], SysExit 0)
          end
    end.

(** The lines of [main] that report a detection. *)
Definition is_report_line (l : out_line) : bool :=
  match l with
  | Detected _ _ | Suspicion _ _ => true
  | _ => false
  end.

(** [datetime.fromtimestamp] raises from the year 10000 on, that is,
    from 10000-01-01 00:00:00 UTC. *)
Definition year_10000 : Q := 253402300800.

Definition rejects_year_10000 (fromtimestamp : Q → option string) : Prop :=
  ∀ k, (year_10000 <= k)%Q → fromtimestamp k = None.

(** The reporter fails on [inv]: whatever [datetime.fromtimestamp]
    returns below the year 10000, [main] ends with the exception it
    raises from there on, and an entry of the registry is left
    unreported. *)
Definition reporter_fails (inv : invocation) : Prop :=
  ∀ fromtimestamp,
    rejects_year_10000 fromtimestamp →
    ∃ checker out,
      scan_filesystem (root_capture inv) init = inr checker
      ∧ main fromtimestamp inv = (out, Uncaught DatetimeError)
      ∧ (length (List.filter is_report_line out)
         < registry_size (detections checker))%nat.

(** An image whose usage database has a 'BackupAgent' row with
    [ZFIRSTTIMESTAMP = 1e12], a date in the year 33689. *)
Definition far_future_invocation : invocation :=
  {| argv := ["ios_triangulation_detector"; "/mnt/image"];
     root_isdir := true;
     missing_dirs := [];
     root_capture :=
       {| sms_attachments_isdir := true;
          sms_walk := [];
          system_plists := [];
          osanalytics_baseline := None;
          datausage_rows :=
            Some [ DbRow (Some 1000000000000%Q) (Some 700000000%Q)
                     (Some "BackupAgent") None (Some 8%Z) None ];
          locationd_clients := None |} |}.

(** A clock that renders every timestamp. *)
Definition sample_clock (k : Q) : option string := Some "2001-01-01 00:16:40+00:00".

Definition sample_invocation : invocation :=
  {| argv := ["ios_triangulation_detector"; "/mnt/image"];
     root_isdir := true;
     missing_dirs := ["private/var/containers"];
     root_capture := detected_capture |}.

Definition missing_modified_window : window :=
  [ (100%Q, ("C", "private/var/mobile/Library/SMS/Attachments/ff/15"));
    (130%Q, ("B", "private/var/mobile/Library/SMS/Attachments/ff/15"));
    (160%Q, ("NetUsage", "nehelper"));
    (190%Q, ("LocationTimeStopped", "client")) ].

(** [two_class_window] backwards, later, with an event repeated. *)
Definition shuffled_window : window :=
  [ (900%Q, ("NetUsage", "nehelper"));
    (950%Q, ("M", "Preferences/com.apple.ImageIO.plist"));
    (5000%Q, ("NetUsage", "nehelper")) ].

(** A usage row of a listed process whose first timestamp is [NULL],
    followed by a 'BackupAgent' row. *)
Definition null_first_rows : list db_row :=
  [ DbRow None (Some 1050%Q) (Some "nehelper") None (Some 7%Z) None;
    DbRow (Some 1040%Q) (Some 1050%Q) (Some "BackupAgent") None (Some 8%Z) None ].

(** The attachment store and two of its directories, as [os.walk]
    yields them below the root of the image. *)
Definition attachment_walk : list walk_entry :=
  [ WalkEntry "private/var/mobile/Library/SMS/Attachments" (Some (one_stat 978308200%Q));
    WalkEntry "private/var/mobile/Library/SMS/Attachments/ff" (Some (one_stat 978308210%Q));
    WalkEntry "private/var/mobile/Library/SMS/Attachments/ff/15" (Some (one_stat 978308220%Q)) ].

(** ** Facts about the string operations *)

Lemma split_aux_length sep skip cur s :
  (1 <= length (PyStr.split_aux sep skip cur s))%nat.
Proof.
  revert skip cur.
  induction s as [|c s IH]; intros skip cur; cbn [PyStr.split_aux].
  - rewrite length_cons. lia.
  - destruct skip; [|apply IH].
    destruct (String.prefix sep (String c s)); [rewrite length_cons; lia|apply IH].
Qed.

(** [sub in s] guarantees that [s.split(sub)[1]] exists. *)
Lemma contains_split_length sep s :
  sep ≠ "" → PyStr.contains sep s = true → (2 <= length (PyStr.split sep s))%nat.
Proof.
  intros Hsep. unfold PyStr.split. generalize "" as cur.
  induction s as [|c s IH]; intros cur H.
  - simpl in H. destruct sep; [done|discriminate].
  - cbn [PyStr.contains] in H. cbn [PyStr.split_aux].
    destruct (String.prefix sep (String c s)) eqn:Hp.
    + pose proof (split_aux_length sep (String.length sep - 1) "" s).
      rewrite length_cons. lia.
    + simpl in H. apply IH, H.
Qed.

(** ** The dictionaries keep one entry per key *)

Lemma append_map_keys {V : Type} (P : Q → Prop) k (v : V) m :
  P k → Forall (λ kv, P kv.1) m → Forall (λ kv, P kv.1) (append_map k v m).
Proof.
  intros Hk. induction m as [|[k' vs] m IH]; cbn [append_map].
  - intros _. by repeat constructor.
  - intros [Hk' Hm]%Forall_cons. destruct (Qeq_bool k' k).
    + by constructor.
    + constructor; [done|by apply IH].
Qed.

Lemma append_map_keys_distinct {V : Type} k (v : V) m :
  keys_distinct m → keys_distinct (append_map k v m).
Proof.
  induction m as [|[k' vs] m IH]; cbn [append_map keys_distinct].
  - intros _. by repeat constructor.
  - intros [Hfresh Hm]. destruct (Qeq_bool k' k) eqn:Hk; cbn [keys_distinct].
    + done.
    + split; [|by apply IH].
      apply (append_map_keys (λ x, ¬ (k' == x)%Q)); [|done].
      intros Heq. apply Qeq_bool_iff in Heq. congruence.
Qed.

(** ** Facts about the declarative reading *)

Lemma in_list_true x l : in_list x l = true ↔ x ∈ l.
Proof.
  unfold in_list. rewrite existsb_exists, list_elem_of_In. split.
  - intros (y & Hy & Heq). apply String.eqb_eq in Heq. by subst.
  - intros H. exists x. split; [done|apply String.eqb_refl].
Qed.

Lemma has_event_true P w :
  has_event P w = true ↔ ∃ ts e, (ts, e) ∈ w ∧ P e = true.
Proof.
  unfold has_event. rewrite existsb_exists. split.
  - intros ([ts e] & Hin & HP). exists ts, e. by rewrite list_elem_of_In.
  - intros (ts & e & Hin & HP). exists (ts, e). by rewrite <- list_elem_of_In.
Qed.

Lemma has_event_false P w :
  has_event P w = false ↔ ∀ ts e, (ts, e) ∈ w → P e = false.
Proof.
  rewrite <- not_true_iff_false, has_event_true. split.
  - intros H ts e Hin. apply not_true_iff_false. intros HP. apply H. eauto.
  - intros H (ts & e & Hin & HP). rewrite (H ts e Hin) in HP. discriminate.
Qed.

Lemma seen_true t p w : seen t p w = true ↔ ∃ ts, (ts, (t, p)) ∈ w.
Proof.
  unfold seen. rewrite has_event_true. split.
  - intros (ts & [t' p'] & Hin & H). simpl in H.
    apply andb_true_iff in H as [H1 H2].
    apply String.eqb_eq in H1, H2. subst. eauto.
  - intros (ts & Hin). exists ts, (t, p). simpl.
    by rewrite !String.eqb_refl.
Qed.

(** ** The classification loop, event by event *)

Lemma heuristics_step_eq st ts e :
  heuristics_step st (ts, e) =
    if is_deep_event e then None
    else Some (LoopState (track e (sms_attachment_directories st))
                         (class_of e ∪ event_classes st)).
Proof.
  destruct st as [dirs classes], e as [t p].
  unfold heuristics_step, is_deep_event, track, class_of, is_generic_file_event,
    is_net_event, is_location_event, is_attachment_event, is_file_event.
  cbn [fst snd sms_attachment_directories event_classes].
  rewrite (Nat.ltb_antisym (length (path_parts p)) 2).
  destruct (in_list t file_types); cbn [andb negb].
  - destruct (PyStr.contains sms_marker p); cbn [andb negb]; [|done].
    destruct (length (path_parts p) <=? 2)%nat; cbn [negb]; [|done].
    by rewrite (left_id_L ∅ (∪)).
  - destruct (in_list t net_types); cbn [andb negb]; [done|].
    destruct (String.eqb t "LocationTimeStopped"); [done|].
    by rewrite (left_id_L ∅ (∪)).
Qed.

Lemma heuristics_loop_disqualified st w :
  heuristics_loop st w = None ↔ window_disqualified w = true.
Proof.
  revert st. induction w as [|[ts e] w IH]; intros st.
  - by split.
  - cbn [heuristics_loop window_disqualified has_event existsb snd].
    rewrite heuristics_step_eq.
    destruct (is_deep_event e); [done|]. rewrite IH. done.
Qed.

(** The classes gathered by a loop that runs to its end. *)
Lemma heuristics_loop_classes st w st' :
  heuristics_loop st w = Some st' →
  ∀ c, c ∈ event_classes st' ↔
       c ∈ event_classes st ∨ ∃ ts e, (ts, e) ∈ w ∧ c ∈ class_of e.
Proof.
  revert st. induction w as [|[ts e] w IH]; intros st H c.
  - injection H as <-. split; [by left|]. intros [?|(?&?&Hin&_)]; [done|].
    by apply elem_of_nil in Hin.
  - cbn [heuristics_loop] in H. rewrite heuristics_step_eq in H.
    destruct (is_deep_event e); [done|].
    rewrite (IH _ H c). cbn [event_classes].
    rewrite (elem_of_union (class_of e) (event_classes st) c). split.
    + intros [[Hc|Hc]|(ts' & e' & Hin & Hc)]; [right|by left|right].
      * exists ts, e. split; [left|done].
      * exists ts', e'. split; [by right|done].
    + intros [Hc|(ts' & e' & Hin & Hc)]; [by left; right|].
      apply elem_of_cons in Hin as [[= -> ->]|Hin]; [by left; left|].
      right. eauto.
Qed.

(** The directories tracked by a loop that runs to its end, and the
    event types recorded for each. *)
Lemma heuristics_loop_dirs st w st' :
  heuristics_loop st w = Some st' →
  ∀ p t, t ∈ default ∅ (sms_attachment_directories st' !! p) ↔
         t ∈ default ∅ (sms_attachment_directories st !! p)
         ∨ ∃ ts, (ts, (t, p)) ∈ w ∧ is_attachment_event (t, p) = true.
Proof.
  revert st. induction w as [|[ts e] w IH]; intros st H p t.
  - injection H as <-. split; [by left|]. intros [?|(?&Hin&_)]; [done|].
    by apply elem_of_nil in Hin.
  - cbn [heuristics_loop] in H. rewrite heuristics_step_eq in H.
    destruct (is_deep_event e); [done|].
    rewrite (IH _ H p t). cbn [sms_attachment_directories].
    destruct e as [t0 p0]. unfold track. cbn [fst snd].
    destruct (is_attachment_event (t0, p0)) eqn:Ha.
    + destruct (decide (p0 = p)) as [->|Hne].
      * rewrite lookup_insert_eq. cbn [from_option id].
        rewrite (elem_of_union {[t0]} _ t), (elem_of_singleton t t0).
        split.
        -- intros [[->|Hc]|(ts' & Hin & Hc)].
           ++ right. exists ts. split; [left|done].
           ++ by left.
           ++ right. exists ts'. split; [by right|done].
        -- intros [Hc|(ts' & Hin & Hc)]; [by left; right|].
           apply elem_of_cons in Hin as [[= -> ->]|Hin]; [by left; left|].
           right. eauto.
      * rewrite lookup_insert_ne by done. split.
        -- intros [Hc|(ts' & Hin & Hc)]; [by left|].
           right. exists ts'. split; [by right|done].
        -- intros [Hc|(ts' & Hin & Hc)]; [by left|].
           apply elem_of_cons in Hin as [[= -> -> ->]|Hin]; [done|].
           right. eauto.
    + split.
      * intros [Hc|(ts' & Hin & Hc)]; [by left|].
        right. exists ts'. split; [by right|done].
      * intros [Hc|(ts' & Hin & Hc)]; [by left|].
        apply elem_of_cons in Hin as [[= -> -> ->]|Hin]; [congruence|].
        right. eauto.
Qed.

(** A directory is tracked exactly when the window has an attachment
    event for it; tracked directories never hold an empty record. *)
Lemma heuristics_loop_tracked st w st' :
  heuristics_loop st w = Some st' →
  (∀ p v, sms_attachment_directories st !! p = Some v → v ≠ ∅) →
  ∀ p, is_Some (sms_attachment_directories st' !! p) ↔
       ∃ t, t ∈ default ∅ (sms_attachment_directories st' !! p).
Proof.
  revert st. induction w as [|[ts e] w IH]; intros st H Hne p.
  - injection H as <-. split.
    + intros [v Hv]. rewrite Hv. cbn [from_option id].
      apply set_choose_L. eauto.
    + intros [t Ht]. destruct (sms_attachment_directories st !! p); [done|].
      cbn [from_option] in Ht. set_solver.
  - cbn [heuristics_loop] in H. rewrite heuristics_step_eq in H.
    destruct (is_deep_event e); [done|].
    apply (IH _ H). cbn [sms_attachment_directories]. unfold track.
    destruct (is_attachment_event e); [|done].
    intros p' v. destruct (decide (e.2 = p')) as [<-|Hd].
    + rewrite lookup_insert_eq. intros [= <-]. set_solver.
    + rewrite lookup_insert_ne by done. apply Hne.
Qed.

Lemma elem_of_class_of c e :
  c ∈ class_of e ↔
    (c = "file" ∧ is_generic_file_event e = true)
    ∨ (c = "net" ∧ is_net_event e = true)
    ∨ (c = "location" ∧ is_location_event e = true).
Proof.
  unfold class_of, is_generic_file_event, is_net_event, is_location_event.
  destruct (is_file_event e), (PyStr.contains sms_marker e.2),
    (in_list e.1 net_types), (String.eqb e.1 "LocationTimeStopped");
    cbn [andb negb]; set_solver.
Qed.

Lemma heuristics_loop_class_iff w st' c :
  heuristics_loop (LoopState ∅ ∅) w = Some st' →
  c ∈ event_classes st' ↔
    (c = "file" ∧ has_event is_generic_file_event w = true)
    ∨ (c = "net" ∧ has_event is_net_event w = true)
    ∨ (c = "location" ∧ has_event is_location_event w = true).
Proof.
  intros H. rewrite (heuristics_loop_classes _ _ _ H c). cbn [event_classes].
  rewrite !has_event_true. split.
  - intros [Hc|(ts & e & Hin & Hc)]; [by apply not_elem_of_empty in Hc|].
    apply elem_of_class_of in Hc as [[-> Hc]|[[-> Hc]|[-> Hc]]]; eauto 8.
  - intros [[-> (ts & e & Hin & He)]|[[-> (ts & e & Hin & He)]|[-> (ts & e & Hin & He)]]];
      right; exists ts, e; (split; [done|]); apply elem_of_class_of; tauto.
Qed.

Lemma heuristics_loop_classes_eq w st' :
  heuristics_loop (LoopState ∅ ∅) w = Some st' →
  event_classes st' =
    classes_of_flags (has_event is_generic_file_event w)
      (has_event is_net_event w) (has_event is_location_event w).
Proof.
  intros H. apply set_eq. intros c.
  rewrite (heuristics_loop_class_iff _ _ _ H). unfold classes_of_flags.
  destruct (has_event is_generic_file_event w), (has_event is_net_event w),
    (has_event is_location_event w); set_solver.
Qed.

Lemma size_classes_of_flags (f n l s : bool) :
  size ((if s then {["sms"]} ∪ classes_of_flags f n l else classes_of_flags f n l))
  = (b2n f + b2n n + b2n l + b2n s)%nat ∧
  size (classes_of_flags f n l) = (b2n f + b2n n + b2n l)%nat.
Proof. destruct f, n, l, s; vm_compute; done. Qed.

Lemma registry_size_append_map {V : Type} k (v : V) m :
  registry_size (append_map k v m) = S (registry_size m).
Proof.
  unfold registry_size. induction m as [|[k' vs] m IH]; [done|].
  cbn [append_map]. destruct (Qeq_bool k' k).
  - rewrite !fmap_cons. cbn [sum_list_with snd]. rewrite length_app. simpl. lia.
  - rewrite !fmap_cons. cbn [sum_list_with]. rewrite IH. lia.
Qed.

Lemma dirs_complete_true dirs :
  dirs_complete dirs = true ↔
  ∀ p v, dirs !! p = Some v → "M" ∈ v ∧ "C" ∈ v.
Proof. unfold dirs_complete. by rewrite bool_decide_eq_true. Qed.

Lemma size_dirs_pos (dirs : gmap string (gset string)) :
  (0 <? size dirs)%nat = true ↔ ∃ p, is_Some (dirs !! p).
Proof.
  rewrite Nat.ltb_lt. split.
  - intros Hs. destruct (map_choose dirs) as (p & v & Hp).
    + intros ->. rewrite map_size_empty in Hs. lia.
    + exists p. eauto.
  - intros (p & v & Hp). destruct (decide (size dirs = 0)) as [Hz|]; [|lia].
    apply map_size_empty_iff in Hz. subst. by rewrite lookup_empty in Hp.
Qed.

(** After a loop that ran to its end from the empty state, the record
    of a path holds exactly the types of its attachment events. *)
Lemma heuristics_loop_record w st' p t :
  heuristics_loop (LoopState ∅ ∅) w = Some st' →
  t ∈ default ∅ (sms_attachment_directories st' !! p) ↔
  seen t p w = true ∧ is_attachment_event (t, p) = true.
Proof.
  intros H. rewrite (heuristics_loop_dirs _ _ _ H p t).
  cbn [sms_attachment_directories]. rewrite lookup_empty, seen_true. split.
  - intros [Hc|(ts & Hin & Ha)]; [by apply not_elem_of_empty in Hc|eauto].
  - intros [[ts Hin] Ha]. eauto.
Qed.

Lemma heuristics_loop_is_tracked w st' p :
  heuristics_loop (LoopState ∅ ∅) w = Some st' →
  is_Some (sms_attachment_directories st' !! p) ↔
  ∃ t, seen t p w = true ∧ is_attachment_event (t, p) = true.
Proof.
  intros H. rewrite (heuristics_loop_tracked _ _ _ H).
  - split; intros [t Ht]; exists t; by apply (heuristics_loop_record _ _ _ _ H).
  - intros p' v. cbn [sms_attachment_directories]. by rewrite lookup_empty.
Qed.

Lemma is_attachment_event_path t t' p :
  is_attachment_event (t, p) = true → t' ∈ file_types →
  is_attachment_event (t', p) = true.
Proof.
  unfold is_attachment_event, is_file_event. cbn [fst snd].
  intros [_ ->]%andb_true_iff Ht'. apply in_list_true in Ht'. by rewrite Ht'.
Qed.

(** [run_heuristics] on a window whose first element is known. *)
Lemma run_heuristics_unfold (w : window) (self : checker) ts0 e0 :
  head w = Some (ts0, e0) →
  run_heuristics w self =
    match heuristics_loop (LoopState ∅ ∅) w with
    | None => Some (RetNone, self)
    | Some st =>
        let dirs := sms_attachment_directories st in
        if negb (dirs_complete dirs) then Some (RetFalse, self)
        else
          let classes :=
            if (0 <? size dirs)%nat then {["sms"]} ∪ event_classes st
            else event_classes st in
          if (2 <=? size classes)%nat
          then Some (RetNone,
                     append_detection ts0 (Det2 "heuristics" w) self)
          else Some (RetNone, self)
    end.
Proof. destruct w as [|[ts e] w]; [done|]. by intros [= -> ->]. Qed.

Lemma head_of_elem {A : Type} (x : A) (l : list A) : x ∈ l → ∃ y, head l = Some y.
Proof. destruct l as [|y l]; [by intros ?%elem_of_nil|eauto]. Qed.

(** ** The heuristic engine: path-depth disqualification *)

(** C4.  A window holding a file event ('M', 'C' or 'B') whose path has
    more than two components after the attachment marker aborts the
    classification loop, and [run_heuristics] returns without recording
    a detection, whatever else the window holds. *)
Theorem deep_attachment_disqualifies_window (w : window) (self : checker)
    (ts : Q) (t p : string) :
  (ts, (t, p)) ∈ w →
  t ∈ file_types →
  PyStr.contains sms_marker p = true →
  (2 < length (path_parts p))%nat →
  heuristics_loop (LoopState ∅ ∅) w = None
  ∧ run_heuristics w self = Some (RetNone, self).
Proof.
  intros Hin Ht Hp Hd.
  assert (Hdis : heuristics_loop (LoopState ∅ ∅) w = None).
  { apply heuristics_loop_disqualified, has_event_true.
    exists ts, (t, p). split; [done|].
    unfold is_deep_event, is_attachment_event, is_file_event. cbn [fst snd].
    apply in_list_true in Ht. rewrite Ht, Hp. by apply Nat.ltb_lt in Hd as ->. }
  split; [done|].
  destruct (head_of_elem _ _ Hin) as [[ts0 e0] Hhd].
  by rewrite (run_heuristics_unfold _ _ _ _ Hhd), Hdis.
Qed.

Lemma deep_attachment_disqualifies_window_witness :
  heuristics_loop (LoopState ∅ ∅) deep_window = None
  ∧ run_heuristics deep_window init = Some (RetNone, init).
Proof.
  apply (deep_attachment_disqualifies_window deep_window init 160%Q "C"
           "private/var/mobile/Library/SMS/Attachments/ff/15/IMG_0001.jpeg").
  - unfold deep_window. right. right. left.
  - unfold file_types. right. left.
  - reflexivity.
  - vm_compute. lia.
Defined.

(** ** The heuristic engine: incomplete attachment evidence *)

(** C1, as stated, fails: a window with an 'M' event but no 'C' event
    for an attachment directory, whose other events span the file and
    net classes, makes [run_heuristics] return [False] and records
    nothing. *)
Lemma incomplete_still_detects_counterexample :
  ¬ incomplete_still_detects incomplete_window init.
Proof.
  intros H.
  destruct H as (r & self' & Hrun & Hsize).
  - exists "private/var/mobile/Library/SMS/Attachments/ff/15".
    repeat split; vm_compute; done.
  - vm_compute. lia.
  - vm_compute in Hrun. injection Hrun as <- <-. vm_compute in Hsize. lia.
Qed.

(** C1, amended.  When some tracked attachment directory of the window
    has an 'M' event but no 'C' event in the window, the window
    contributes no sms class and [run_heuristics] records no detection
    at all, whatever other classes the window spans: it returns [False]
    after the classification loop, or returns from inside it when the
    window is disqualified. *)
Theorem incomplete_attachment_suppresses_window (w : window) (self : checker) :
  modified_without_attr_change w →
  run_heuristics w self
  = Some (if window_disqualified w then RetNone else RetFalse, self).
Proof.
  intros (p & HM & Hp & _ & HC).
  apply seen_true in HM as [ts Hin].
  destruct (head_of_elem _ _ Hin) as [[ts0 e0] Hhd].
  rewrite (run_heuristics_unfold _ _ _ _ Hhd).
  destruct (heuristics_loop (LoopState ∅ ∅) w) as [st'|] eqn:Hloop.
  - assert (Hq : window_disqualified w = false).
    { apply not_true_iff_false. rewrite <- heuristics_loop_disqualified.
      by rewrite Hloop. }
    rewrite Hq.
    assert (Ha : is_attachment_event ("M", p) = true).
    { unfold is_attachment_event, is_file_event. cbn [fst snd]. by rewrite Hp. }
    assert (HMin : "M" ∈ default ∅ (sms_attachment_directories st' !! p)).
    { apply (heuristics_loop_record _ _ _ _ Hloop). split; [|done].
      apply seen_true. eauto. }
    assert (HCout : "C" ∉ default ∅ (sms_attachment_directories st' !! p)).
    { intros [HCs _]%(heuristics_loop_record _ _ _ _ Hloop). congruence. }
    destruct (sms_attachment_directories st' !! p) as [v|] eqn:Hv;
      [|by apply not_elem_of_empty in HMin].
    cbn [from_option id] in HMin, HCout. cbv zeta.
    destruct (dirs_complete (sms_attachment_directories st')) eqn:Hcomplete; [|done].
    exfalso. apply HCout.
    by apply (proj1 (dirs_complete_true _) Hcomplete p v Hv).
  - apply heuristics_loop_disqualified in Hloop. by rewrite Hloop.
Qed.

Lemma incomplete_attachment_suppresses_window_witness :
  run_heuristics incomplete_window init = Some (RetFalse, init).
Proof.
  apply (incomplete_attachment_suppresses_window incomplete_window init).
  exists "private/var/mobile/Library/SMS/Attachments/ff/15".
  repeat split; vm_compute; done.
Defined.

(** ** The heuristic engine: the detection rule *)

Lemma attachments_complete_true w :
  attachments_complete w = true ↔
  ∀ ts t p, (ts, (t, p)) ∈ w → is_attachment_event (t, p) = true →
            seen "M" p w = true ∧ seen "C" p w = true.
Proof.
  unfold attachments_complete. rewrite forallb_forall. split.
  - intros H ts t p Hin Ha. apply list_elem_of_In in Hin.
    specialize (H _ Hin). cbn [snd] in H. rewrite Ha in H.
    by apply andb_true_iff in H.
  - intros H [ts [t p]] Hin. apply list_elem_of_In in Hin. cbn [snd].
    destruct (is_attachment_event (t, p)) eqn:Ha; [|done].
    destruct (H ts t p Hin Ha) as [-> ->]. done.
Qed.

Lemma getitem_append_map {V : Type} k (v : V) m :
  getitem k (append_map k v m) = getitem k m ++ [v].
Proof.
  induction m as [|[k' vs] m IH]; cbn [append_map getitem].
  - by rewrite (proj2 (Qeq_bool_iff k k) (Qeq_refl k)).
  - destruct (Qeq_bool k' k) eqn:Hk; cbn [getitem]; by rewrite Hk.
Qed.

(** What the first loop leaves behind on a window that is neither
    disqualified nor incomplete. *)
Lemma heuristics_loop_complete w :
  window_disqualified w = false →
  attachments_complete w = true →
  ∃ st', heuristics_loop (LoopState ∅ ∅) w = Some st'
         ∧ dirs_complete (sms_attachment_directories st') = true
         ∧ (0 <? size (sms_attachment_directories st'))%nat
           = has_event is_attachment_event w
         ∧ event_classes st'
           = classes_of_flags (has_event is_generic_file_event w)
               (has_event is_net_event w) (has_event is_location_event w).
Proof.
  intros Hq Hc.
  destruct (heuristics_loop (LoopState ∅ ∅) w) as [st'|] eqn:Hloop.
  2:{ apply heuristics_loop_disqualified in Hloop. congruence. }
  exists st'. split; [done|].
  pose proof (proj1 (attachments_complete_true w) Hc) as Hall.
  split; [|split].
  - apply dirs_complete_true. intros p v Hv.
    destruct (proj1 (heuristics_loop_is_tracked _ _ p Hloop)) as (t & Ht & Ha);
      [by eexists|].
    apply seen_true in Ht as [ts Hin].
    destruct (Hall ts t p Hin Ha) as [HM HC].
    pose proof (heuristics_loop_record w st' p "M" Hloop) as RM.
    pose proof (heuristics_loop_record w st' p "C" Hloop) as RC.
    rewrite Hv in RM, RC. cbn [from_option id] in RM, RC.
    split; [apply RM|apply RC]; (split; [done|]);
      apply (is_attachment_event_path t); [done| |done|];
      unfold file_types; set_solver.
  - apply Bool.eq_iff_eq_true. rewrite size_dirs_pos, has_event_true. split.
    + intros (p & Hp).
      apply (heuristics_loop_is_tracked _ _ _ Hloop) in Hp as (t & Ht & Ha).
      apply seen_true in Ht as [ts Hin]. eauto.
    + intros (ts & [t p] & Hin & Ha). exists p.
      apply (heuristics_loop_is_tracked _ _ _ Hloop). exists t.
      split; [|done]. apply seen_true. eauto.
  - by apply heuristics_loop_classes_eq.
Qed.

(** C5, as stated, fails.  A window that no path depth disqualifies
    and that holds two of the classes file, net and location is not
    recorded when one of its attachment directories lacks its 'C' event
    ([incomplete_window]) or its 'M' event ([missing_modified_window]):
    [run_heuristics] returns [False] before it reaches the rule. *)
Lemma undisqualified_detects_counterexample :
  ¬ undisqualified_detects incomplete_window init
  ∧ ¬ undisqualified_detects missing_modified_window init
  ∧ run_heuristics incomplete_window init = Some (RetFalse, init)
  ∧ run_heuristics missing_modified_window init = Some (RetFalse, init).
Proof.
  split; [|split; [|by vm_compute]];
    intros H; destruct H as (r & self' & Hrun & Hsize);
    try (vm_compute; reflexivity); try (vm_compute; lia);
    vm_compute in Hrun; injection Hrun as <- <-; vm_compute in Hsize; lia.
Qed.

(** C5, amended.  For a window that reaches the detection rule (it is
    not disqualified by path depth, and every tracked attachment
    directory has both its 'M' and 'C' event): when at least two of the
    classes file, net, location and sms are present, [run_heuristics]
    records exactly one detection, tagged 'heuristics', under the
    timestamp of the window's first event and with the window itself as
    evidence; when at most one class is present it records nothing. *)
Theorem detection_rule (w : window) (self : checker) (ts0 : Q) (e0 : event) :
  head w = Some (ts0, e0) →
  window_disqualified w = false →
  attachments_complete w = true →
  let self' := append_detection ts0 (Det2 "heuristics" w) self in
  ((2 <= class_count w)%nat →
     run_heuristics w self = Some (RetNone, self')
     ∧ getitem ts0 (detections self')
       = getitem ts0 (detections self) ++ [Det2 "heuristics" w]
     ∧ registry_size (detections self') = S (registry_size (detections self)))
  ∧ ((class_count w <= 1)%nat → run_heuristics w self = Some (RetNone, self)).
Proof.
  intros Hhd Hq Hc self'.
  rewrite (run_heuristics_unfold _ _ _ _ Hhd).
  destruct (heuristics_loop_complete w Hq Hc) as (st' & Hl & Hd & Hs & He).
  rewrite Hl. cbv zeta. rewrite Hd, Hs, He. cbn [negb].
  destruct (size_classes_of_flags (has_event is_generic_file_event w)
              (has_event is_net_event w) (has_event is_location_event w)
              (has_event is_attachment_event w)) as [Hsz _].
  rewrite Hsz. fold (other_class_count w). fold (class_count w).
  split; intros Hn.
  - apply Nat.leb_le in Hn as ->. split; [done|]. subst self'.
    cbn [append_detection detections].
    by rewrite getitem_append_map, registry_size_append_map.
  - destruct (Nat.leb_spec 2 (class_count w)) as [?|_]; [lia|done].
Qed.

Lemma detection_rule_witness :
  run_heuristics two_class_window init
  = Some (RetNone, {| timeline := [];
                      detections := [(100%Q, [Det2 "heuristics" two_class_window])] |})
  ∧ run_heuristics one_class_window init = Some (RetNone, init).
Proof.
  split.
  - apply (detection_rule two_class_window init 100%Q
             ("M", "Preferences/com.apple.ImageIO.plist")).
    + reflexivity.
    + vm_compute. reflexivity.
    + vm_compute. reflexivity.
    + vm_compute. lia.
  - apply (detection_rule one_class_window init 100%Q ("NetFirst", "nehelper")).
    + reflexivity.
    + vm_compute. reflexivity.
    + vm_compute. reflexivity.
    + vm_compute. lia.
Defined.

(** ** Rounding to binary64 *)

Lemma rne_cases y :
  let q := Qfloor y in
  (Binary64.rne y = q ∧ (y - inject_Z q <= 1 # 2)%Q
     ∧ ((y - inject_Z q == 1 # 2)%Q → Z.even q = true))
  ∨ (Binary64.rne y = (q + 1)%Z ∧ (1 # 2 <= y - inject_Z q)%Q
     ∧ ((y - inject_Z q == 1 # 2)%Q → Z.even q = false)).
Proof.
  intros q. unfold Binary64.rne. fold q.
  destruct (Qcompare_spec (y - inject_Z q) (1 # 2)) as [H|H|H].
  - destruct (Z.even q) eqn:He; [left|right];
      (split; [done|]); (split; [lra|done]).
  - left. split; [done|]. split; [lra|]. intros H'. lra.
  - right. split; [done|]. split; [lra|]. intros H'. lra.
Qed.

Lemma Qfloor_bounds y :
  (inject_Z (Qfloor y) <= y)%Q ∧ (y < inject_Z (Qfloor y) + 1)%Q.
Proof.
  split; [apply Qfloor_le|].
  pose proof (Qlt_floor y) as H. by rewrite inject_Z_plus in H.
Qed.

Lemma rne_le y N : (y <= inject_Z N)%Q → (Binary64.rne y <= N)%Z.
Proof.
  intros Hy. destruct (Qfloor_bounds y) as [Hq1 Hq2].
  destruct (rne_cases y) as [(-> & _ & _)|(-> & Hh & _)].
  - rewrite Zle_Qle. lra.
  - assert (Qfloor y < N)%Z; [|lia]. rewrite Zlt_Qlt. lra.
Qed.

Lemma rne_ge y N : (inject_Z N <= y)%Q → (N <= Binary64.rne y)%Z.
Proof.
  intros Hy. destruct (Qfloor_bounds y) as [Hq1 Hq2].
  assert (N < Qfloor y + 1)%Z.
  { rewrite Zlt_Qlt, inject_Z_plus. change (inject_Z 1) with 1%Q. lra. }
  destruct (rne_cases y) as [(-> & _ & _)|(-> & _ & _)]; lia.
Qed.

Lemma rne_le_half_even y N :
  (y <= inject_Z N + (1 # 2))%Q → Z.even N = true → (Binary64.rne y <= N)%Z.
Proof.
  intros Hy Heven. destruct (Qfloor_bounds y) as [Hq1 Hq2].
  assert (Hle : (Qfloor y < N + 1)%Z).
  { rewrite Zlt_Qlt, inject_Z_plus. change (inject_Z 1) with 1%Q. lra. }
  destruct (rne_cases y) as [(-> & _ & _)|(-> & Hh & Hodd)]; [lia|].
  destruct (Z.eq_dec (Qfloor y) N) as [Heq|Hne]; [|lia].
  rewrite Heq in Hh, Hodd. rewrite Hodd in Heven; [done|]. lra.
Qed.

Lemma rne_gt_half y N :
  (inject_Z N + (1 # 2) < y)%Q → (N + 1 <= Binary64.rne y)%Z.
Proof.
  intros Hy. destruct (Qfloor_bounds y) as [Hq1 Hq2].
  assert (Hle : (N < Qfloor y + 1)%Z).
  { rewrite Zlt_Qlt, inject_Z_plus. change (inject_Z 1) with 1%Q. lra. }
  destruct (rne_cases y) as [(-> & Hh & _)|(-> & _ & _)]; [|lia].
  destruct (Z.eq_dec (Qfloor y) N) as [Heq|Hne]; [|lia].
  rewrite Heq in Hh. lra.
Qed.

Lemma two_pow_pos k : (0 < 2 ^ k)%Q.
Proof. by apply Qpower_0_lt. Qed.

Lemma two_pow_add a b : (2 ^ (a + b) == 2 ^ a * 2 ^ b)%Q.
Proof. by apply Qpower_plus. Qed.

Lemma two_pow_Z n : (0 <= n)%Z → (inject_Z (2 ^ n) == 2 ^ n)%Q.
Proof. intros Hn. by rewrite Zpower_Qpower. Qed.

Lemma log2_bounds n :
  (0 < n)%Z →
  (2 ^ Z.log2 n <= inject_Z n)%Q ∧ (inject_Z n < 2 * 2 ^ Z.log2 n)%Q.
Proof.
  intros Hn. destruct (Z.log2_spec n Hn) as [H1 H2].
  pose proof (Z.log2_nonneg n) as H0.
  rewrite <- two_pow_Z by done. split.
  - by rewrite <- Zle_Qle.
  - rewrite Z.pow_succ_r in H2 by done.
    rewrite Zlt_Qlt, inject_Z_mult in H2. exact H2.
Qed.

Lemma ilog2_spec a :
  (0 < a)%Q →
  (2 ^ Binary64.ilog2 a <= a)%Q ∧ (a < 2 * 2 ^ Binary64.ilog2 a)%Q.
Proof.
  intros Ha. destruct a as [n d].
  assert (Hn : (0 < n)%Z).
  { unfold Qlt in Ha. cbn in Ha. lia. }
  destruct (log2_bounds n Hn) as [Hn1 Hn2].
  destruct (log2_bounds (Zpos d) eq_refl) as [Hd1 Hd2].
  unfold Binary64.ilog2. cbn [Qnum Qden].
  assert (Hmul : ((n # d) * inject_Z (Zpos d) == inject_Z n)%Q).
  { unfold Qeq, Qmult, inject_Z. cbn. lia. }
  pose proof (two_pow_add (Z.log2 n - Z.log2 (Z.pos d)) (Z.log2 (Z.pos d))) as Hk.
  replace (Z.log2 n - Z.log2 (Z.pos d) + Z.log2 (Z.pos d))%Z
    with (Z.log2 n) in Hk by lia.
  pose proof (two_pow_add (Z.log2 n - Z.log2 (Z.pos d) - 1) 1) as Hk1.
  replace (Z.log2 n - Z.log2 (Z.pos d) - 1 + 1)%Z
    with (Z.log2 n - Z.log2 (Z.pos d))%Z in Hk1 by lia.
  change (2 ^ 1)%Q with 2%Q in Hk1.
  pose proof (two_pow_pos (Z.log2 n - Z.log2 (Z.pos d))) as Hp.
  pose proof (two_pow_pos (Z.log2 n - Z.log2 (Z.pos d) - 1)) as Hp1.
  pose proof (two_pow_pos (Z.log2 (Z.pos d))) as Hpd.
  set (k := (Z.log2 n - Z.log2 (Z.pos d))%Z) in *.
  generalize dependent (inject_Z (Z.pos d)). intros D Hd1 Hd2 Hmul.
  generalize dependent (inject_Z n). intros N Hn1 Hn2 Hmul.
  generalize dependent (n # d)%Q. intros A _ Hmul.
  destruct (Qle_bool (2 ^ k) A) eqn:Hb.
  - apply Qle_bool_iff in Hb. split; [done|].
    apply Qnot_le_lt. intros Hc.
    assert ((2 * 2 ^ k) * D <= A * D)%Q
      by (apply Qmult_le_compat_r; lra).
    assert ((2 * 2 ^ k) * 2 ^ Z.log2 (Z.pos d)
            <= (2 * 2 ^ k) * D)%Q
      by (apply Qmult_le_l; lra).
    lra.
  - assert (Hlt : (A < 2 ^ k)%Q).
    { apply Qnot_le_lt. intros Hc. apply Qle_bool_iff in Hc. congruence. }
    split; [|lra].
    apply Qnot_lt_le. intros Hc.
    assert (A * D <= 2 ^ (k - 1) * D)%Q
      by (apply Qmult_le_compat_r; lra).
    assert (2 ^ (k - 1) * D
            < 2 ^ (k - 1) * (2 * 2 ^ Z.log2 (Z.pos d)))%Q
      by (apply Qmult_lt_l; lra).
    rewrite Hk1 in Hk. lra.
Qed.

Lemma round_nonpos x : (x <= 0)%Q → (Binary64.round x <= 0)%Q.
Proof.
  intros Hx. unfold Binary64.round.
  destruct (Z.eqb_spec (Qnum x) 0) as [H0|H0]; [lra|].
  cbv zeta. rewrite Qred_correct.
  destruct (Z.ltb_spec (Qnum x) 0) as [Hlt|Hge].
  - set (e := Z.max (Binary64.ilog2 (Qabs x) - 52) (-1074)).
    pose proof (two_pow_pos e) as He. pose proof (two_pow_pos (- e)) as He'.
    pose proof (Qabs_nonneg x) as Ha.
    assert (Hm : (0 <= Binary64.rne (Qabs x * 2 ^ (- e)))%Z).
    { apply rne_ge. change (inject_Z 0) with 0%Q.
      apply Qmult_le_0_compat; lra. }
    rewrite Zle_Qle in Hm. change (inject_Z 0) with 0%Q in Hm.
    assert (0 <= inject_Z (Binary64.rne (Qabs x * 2 ^ (- e))) * 2 ^ e)%Q
      by (apply Qmult_le_0_compat; lra).
    lra.
  - exfalso. unfold Qle in Hx. cbn in Hx. lia.
Qed.

Lemma round_of_pos x :
  (0 < x)%Q →
  let e := Z.max (Binary64.ilog2 (Qabs x) - 52) (-1074) in
  (Binary64.round x == inject_Z (Binary64.rne (Qabs x * 2 ^ (- e))) * 2 ^ e)%Q.
Proof.
  intros Hx e. unfold Binary64.round.
  assert (Hn : (0 < Qnum x)%Z) by (unfold Qlt in Hx; cbn in Hx; lia).
  destruct (Z.eqb_spec (Qnum x) 0) as [H0|H0]; [lia|].
  destruct (Z.ltb_spec (Qnum x) 0) as [Hlt|Hge]; [lia|].
  cbv zeta. by rewrite Qred_correct.
Qed.

(** A difference rounds to more than 300 exactly when it exceeds 300 by
    more than half the spacing of the binary64 numbers at 300, which is
    2^-45: the tie goes to 300, whose significand is even. *)
Lemma round_gt_300 x :
  (300 < Binary64.round x)%Q ↔ (300 + (1 # 35184372088832) < x)%Q.
Proof.
  destruct (Qlt_le_dec 0 x) as [Hpos|Hneg].
  2:{ pose proof (round_nonpos x Hneg). split; intros; lra. }
  rewrite (round_of_pos x Hpos).
  assert (Ha : (Qabs x == x)%Q) by (apply Qabs_pos; lra).
  assert (Ha0 : (0 < Qabs x)%Q) by lra.
  destruct (ilog2_spec (Qabs x) Ha0) as [HL1 HL2].
  revert Ha Ha0 HL1 HL2. generalize (Qabs x). intros a Ha Ha0 HL1 HL2.
  set (L := Binary64.ilog2 a) in *.
  split.
  - intros Hv. apply Qnot_le_lt. intros Hx.
    assert (HL : (L < 9)%Z).
    { apply (Qpower_lt_compat_l_inv 2); [|done].
      change (2 ^ 9)%Q with 512%Q. lra. }
    destruct (Z.eq_dec L 8%Z) as [HL8|HL8].
    + assert (He : Z.max (L - 52) (-1074) = (-44)%Z) by lia.
      rewrite He in Hv. change (- -44)%Z with 44%Z in Hv.
      assert (Hm : (Binary64.rne (a * 2 ^ 44) <= 5277655813324800)%Z).
      { apply rne_le_half_even; [|done].
        change (2 ^ 44)%Q with 17592186044416%Q.
        change (inject_Z 5277655813324800) with 5277655813324800%Q. lra. }
      rewrite Zle_Qle in Hm.
      change (inject_Z 5277655813324800) with 5277655813324800%Q in Hm.
      change (2 ^ (-44))%Q with (1 # 17592186044416)%Q in Hv. lra.
    + assert (Ha256 : (a < 256)%Q).
      { assert (2 ^ L <= 2 ^ 7)%Q by (apply Qpower_le_compat_l; [lia|done]).
        change (2 ^ 7)%Q with 128%Q in *. lra. }
      set (p := (- Z.max (L - 52) (-1074))%Z) in *.
      assert (Hp : (45 <= p)%Z) by lia.
      replace (Z.max (L - 52) (-1074)) with (- p)%Z in Hv by lia.
      pose proof (two_pow_pos p) as Hpp. pose proof (two_pow_pos (- p)) as Hpn.
      pose proof (two_pow_add p (- p)) as Hinv.
      rewrite Z.add_opp_diag_r in Hinv. change (2 ^ 0)%Q with 1%Q in Hinv.
      assert (Hm : (Binary64.rne (a * 2 ^ p) <= 256 * 2 ^ p)%Z).
      { apply rne_le. rewrite inject_Z_mult, two_pow_Z by lia.
        change (inject_Z 256) with 256%Q.
        apply Qmult_le_compat_r; lra. }
      rewrite Zle_Qle, inject_Z_mult, two_pow_Z in Hm by lia.
      change (inject_Z 256) with 256%Q in Hm.
      assert (inject_Z (Binary64.rne (a * 2 ^ p)) * 2 ^ (- p)
              <= 256 * 2 ^ p * 2 ^ (- p))%Q
        by (apply Qmult_le_compat_r; lra).
      assert (256 * 2 ^ p * 2 ^ (- p) == 256)%Q
        by (rewrite <- Qmult_assoc, <- Hinv; ring).
      lra.
  - intros Hx.
    assert (HL : (8 < L + 1)%Z).
    { apply (Qpower_lt_compat_l_inv 2); [|done].
      rewrite two_pow_add. change (2 ^ 8)%Q with 256%Q.
      change (2 ^ 1)%Q with 2%Q. lra. }
    destruct (Z.eq_dec L 8%Z) as [HL8|HL8].
    + assert (He : Z.max (L - 52) (-1074) = (-44)%Z) by lia.
      rewrite He. change (- -44)%Z with 44%Z.
      assert (Hm : (5277655813324800 + 1 <= Binary64.rne (a * 2 ^ 44))%Z).
      { apply rne_gt_half.
        change (2 ^ 44)%Q with 17592186044416%Q.
        change (inject_Z 5277655813324800) with 5277655813324800%Q. lra. }
      rewrite Zle_Qle in Hm.
      change (inject_Z (5277655813324800 + 1)) with 5277655813324801%Q in Hm.
      change (2 ^ (-44))%Q with (1 # 17592186044416)%Q. lra.
    + assert (He : Z.max (L - 52) (-1074) = (L - 52)%Z) by lia.
      rewrite He. replace (- (L - 52))%Z with (52 - L)%Z by lia.
      pose proof (two_pow_pos (52 - L)) as Hpp.
      pose proof (two_pow_pos (L - 52)) as Hpn.
      pose proof (two_pow_add L (52 - L)) as H52.
      replace (L + (52 - L))%Z with 52%Z in H52 by lia.
      pose proof (two_pow_add 52 (L - 52)) as HLL.
      replace (52 + (L - 52))%Z with L in HLL by lia.
      assert (Hm : (2 ^ 52 <= Binary64.rne (a * 2 ^ (52 - L)))%Z).
      { apply rne_ge. rewrite two_pow_Z by lia. rewrite H52.
        apply Qmult_le_compat_r; lra. }
      rewrite Zle_Qle, two_pow_Z in Hm by lia.
      assert (2 ^ 52 * 2 ^ (L - 52)
              <= inject_Z (Binary64.rne (a * 2 ^ (52 - L))) * 2 ^ (L - 52))%Q
        by (apply Qmult_le_compat_r; lra).
      assert (2 ^ 9 <= 2 ^ L)%Q by (apply Qpower_le_compat_l; [lia|done]).
      change (2 ^ 9)%Q with 512%Q in *. lra.
Qed.






(** ** The sliding window: the time-bound trim *)

Lemma Qgtb_true a b : Qgtb a b = true ↔ (b < a)%Q.
Proof.
  unfold Qgtb. rewrite negb_true_iff, <- not_true_iff_false, Qle_bool_iff. split.
  - apply Qnot_le_lt.
  - apply Qlt_not_le.
Qed.

Lemma Qgtb_false a b : Qgtb a b = false ↔ (a <= b)%Q.
Proof. unfold Qgtb. by rewrite negb_false_iff, Qle_bool_iff. Qed.

(** The test of the inner loop, [timestamp_item - timestamp_start >
    time_delta_max], in exact terms: the rounded difference exceeds 300
    exactly when the timestamps differ by more than 300 + 2^-45. *)
Lemma span_test t ts0 :
  Qgtb (Binary64.sub t ts0) time_delta_max = true
  ↔ (ts0 + time_delta_max + span_slack < t)%Q.
Proof.
  rewrite Qgtb_true. unfold Binary64.sub, time_delta_max, span_slack.
  change (60 * 5)%Q with 300%Q. rewrite round_gt_300. split; intros; lra.
Qed.


(** The inner loop cuts the window at the first index at which its test
    holds. *)
Lemma trim_loop_spec ts0 (pre todo : window) :
  ∃ n, (n <= length todo)%nat
       ∧ trim_loop ts0 (pre ++ todo) (length pre) todo = pre ++ take n todo
       ∧ (∀ x, x ∈ take n todo →
               Qgtb (Binary64.sub x.1 ts0) time_delta_max = false)
       ∧ (∀ x, todo !! n = Some x →
               Qgtb (Binary64.sub x.1 ts0) time_delta_max = true).
Proof.
  revert pre. induction todo as [|[t e] todo IH]; intros pre.
  - exists 0%nat. cbn [trim_loop]. rewrite take_nil.
    repeat split; [done| |done]. by intros x ?%elem_of_nil.
  - cbn [trim_loop].
    destruct (Qgtb (Binary64.sub t ts0) time_delta_max) eqn:Hgt.
    + exists 0%nat. rewrite take_app_length, take_0, app_nil_r.
      repeat split; [simpl; lia|by intros x ?%elem_of_nil|].
      by intros x [= <-].
    + destruct (IH (pre ++ [(t, e)])) as (n & Hn & Heq & Hkeep & Hcut).
      exists (S n). rewrite <- (assoc_L (++)) in Heq. cbn [app] in Heq.
      rewrite length_app in Heq. cbn [length] in Heq.
      rewrite Nat.add_1_r in Heq.
      repeat split.
      * simpl. lia.
      * rewrite Heq. by rewrite <- (assoc_L (++)).
      * intros x Hx. cbn [take] in Hx.
        apply elem_of_cons in Hx as [->|Hx]; [done|by apply Hkeep].
      * intros x Hx. by apply Hcut.
Qed.

Lemma trim_spec ts0 (w : window) :
  ∃ n, (n <= length w)%nat
       ∧ trim ts0 w = take n w
       ∧ (∀ x, x ∈ take n w →
               Qgtb (Binary64.sub x.1 ts0) time_delta_max = false)
       ∧ (∀ x, w !! n = Some x →
               Qgtb (Binary64.sub x.1 ts0) time_delta_max = true).
Proof.
  destruct (trim_loop_spec ts0 [] w) as (n & Hn & Heq & Hkeep & Hcut).
  by exists n.
Qed.

(** The anchor survives the trim. *)
Lemma trim_keeps_anchor ts0 e0 (w : window) :
  head w = Some (ts0, e0) → head (trim ts0 w) = Some (ts0, e0).
Proof.
  intros Hhd. destruct (trim_spec ts0 w) as (n & Hn & -> & _ & Hcut).
  destruct w as [|x w]; [done|]. injection Hhd as ->.
  destruct n as [|n]; [|done].
  specialize (Hcut _ eq_refl). cbn [fst] in Hcut. apply span_test in Hcut.
  unfold time_delta_max, span_slack in Hcut. lra.
Qed.

(** The indices of the outer loop, and the full slice at each. *)
Lemma elem_of_anchor_indices (expanded : window) i :
  i ∈ anchor_indices expanded ↔ (i + events_max < length expanded)%nat.
Proof. unfold anchor_indices. rewrite elem_of_seq. lia. Qed.

Lemma anchor_slice (expanded : window) i :
  i ∈ anchor_indices expanded →
  ∃ ts0 e0, expanded !! i = Some (ts0, e0)
            ∧ head (take events_max (drop i expanded)) = Some (ts0, e0)
            ∧ length (take events_max (drop i expanded)) = events_max.
Proof.
  rewrite elem_of_anchor_indices. intros Hi.
  destruct (lookup_lt_is_Some_2 expanded i) as [[ts0 e0] Hx]; [lia|].
  exists ts0, e0. split; [done|]. split.
  - by rewrite (drop_S _ _ _ Hx).
  - rewrite length_take, length_drop. lia.
Qed.

(** ** The expanded timeline is in ascending order of timestamp *)






(** ** The sliding window: what each anchor hands to the classifier *)




(** ** The sliding window: no empty window reaches the classifier *)

Lemma run_heuristics_total (w : window) (self : checker) :
  w ≠ [] → is_Some (run_heuristics w self).
Proof.
  destruct w as [|[ts0 e0] w]; [done|]. intros _.
  rewrite (run_heuristics_unfold ((ts0, e0) :: w) self ts0 e0 eq_refl).
  destruct (heuristics_loop _ _); [|by eexists]. cbv zeta.
  destruct (negb _); [by eexists|]. destruct (_ <=? _)%nat; by eexists.
Qed.

(** The window at an anchor starts with the anchor event. *)
Lemma window_at_anchor (expanded : window) (i : nat) :
  i ∈ anchor_indices expanded →
  ∃ w anchor e,
    window_at expanded i = Some w
    ∧ expanded !! i = Some (anchor, e)
    ∧ head w = Some (anchor, e).
Proof.
  intros Hi.
  destruct (anchor_slice expanded i Hi) as (anchor & e & Hx & Hhd & _).
  exists (trim anchor (take events_max (drop i expanded))), anchor, e.
  split; [unfold window_at; by rewrite Hx|]. split; [done|].
  by apply trim_keeps_anchor.
Qed.

(** C9.  Every window that the sliding-window loop of [scan_filesystem]
    passes to [run_heuristics] is non-empty: its first element is the
    anchor event itself, which the trim never removes, so reading the
    first element of the window in [run_heuristics] raises no
    [IndexError]. *)
Theorem scan_window_nonempty (expanded : window) (i : nat) :
  i ∈ anchor_indices expanded →
  ∃ w anchor e,
    window_at expanded i = Some w
    ∧ expanded !! i = Some (anchor, e)
    ∧ head w = Some (anchor, e)
    ∧ w ≠ []
    ∧ ∀ self, is_Some (run_heuristics w self).
Proof.
  intros Hi.
  destruct (window_at_anchor expanded i Hi) as (w & anchor & e & Hw & Hx & Hhd).
  exists w, anchor, e.
  assert (Hne : w ≠ []).
  { intros ->. discriminate Hhd. }
  split; [done|]. split; [done|]. split; [done|]. split; [done|].
  intros self. by apply run_heuristics_total.
Qed.

Lemma scan_window_nonempty_witness :
  ∃ w, window_at (expand_timeline sample_timeline) 1 = Some w ∧ w ≠ [].
Proof.
  destruct (scan_window_nonempty (expand_timeline sample_timeline) 1)
    as (w & anchor & e & Hw & _ & _ & Hne & _).
  - apply elem_of_anchor_indices. vm_compute. lia.
  - exists w. split; [exact Hw|exact Hne].
Defined.

(** The sliding-window loop runs to its end: neither the indexing of the
    expanded timeline nor [run_heuristics] raises. *)
Lemma scan_loop_returns (expanded : window) (indices : list nat) (self : checker) :
  (∀ i, i ∈ indices → i ∈ anchor_indices expanded) →
  ∃ self', scan_loop expanded indices self = inr self'.
Proof.
  revert self. induction indices as [|i rest IH]; intros self Hall.
  - by eexists.
  - cbn [scan_loop].
    destruct (window_at_anchor expanded i) as (w & anchor & e & -> & _ & Hhd).
    { apply Hall. left. }
    destruct (run_heuristics_total w self) as [[r self1] ->].
    { intros ->. discriminate Hhd. }
    apply IH. intros j Hj. apply Hall. by right.
Qed.

(** ** The sliding window: which anchors are visited *)

(** C3 (defect).  The loop visits the anchors [0 .. len - W - 1], one
    fewer than the anchors [0 .. len - W] of the specification: a
    timeline of exactly [events_max] events is never evaluated.  On
    [ten_event_capture] the scan returns no detection although its ten
    events, taken as one window, satisfy the heuristic. *)
Theorem full_window_of_ten_not_evaluated :
  (∀ expanded : window,
     length (anchor_indices expanded) = (length expanded - events_max)%nat)
  ∧ (∀ expanded : window,
       length expanded = events_max → anchor_indices expanded = [])
  ∧ ∃ self',
      scan_filesystem ten_event_capture init = inr self'
      ∧ length (expand_timeline (timeline self')) = events_max
      ∧ detections self' = []
      ∧ emits_heuristic (expand_timeline (timeline self')) self'.
Proof.
  split; [|split].
  - intros expanded. unfold anchor_indices. by rewrite length_seq.
  - intros expanded Hlen. unfold anchor_indices. by rewrite Hlen, Nat.sub_diag.
  - eexists. split; [vm_compute; reflexivity|].
    split; [vm_compute; reflexivity|]. split; [reflexivity|].
    eexists _, _. split; [vm_compute; reflexivity|]. vm_compute. reflexivity.
Qed.

(** ** The formatter *)

Lemma string_app_assoc (a b c : string) : (a +:+ b) +:+ c = a +:+ b +:+ c.
Proof.
  induction a as [|x a IH]; [reflexivity|].
  change (String x ((a +:+ b) +:+ c) = String x (a +:+ b +:+ c)). by rewrite IH.
Qed.

Lemma string_app_nil_r (a : string) : a +:+ "" = a.
Proof.
  induction a as [|x a IH]; [reflexivity|].
  change (String x (a +:+ "") = String x a). by rewrite IH.
Qed.

Lemma first_unknown_None w :
  first_unknown w = None ↔ ∀ ts e, (ts, e) ∈ w → known_category e.1 = true.
Proof.
  induction w as [|[ts [t d]] w IH]; cbn [first_unknown].
  - split; [|done]. by intros _ ts e ?%elem_of_nil.
  - destruct (known_category t) eqn:Hk.
    + rewrite IH. split.
      * intros H ts' e' [[= -> ->]|Hin]%elem_of_cons; [done|eauto].
      * intros H ts' e' Hin. apply (H ts'). by right.
    + split; [done|]. intros H. specialize (H ts (t, d)). cbn [fst] in H.
      rewrite Hk in H. discriminate H. left.
Qed.

Lemma first_unknown_Some w t :
  first_unknown w = Some t →
  known_category t = false ∧ ∃ ts d, (ts, (t, d)) ∈ w.
Proof.
  induction w as [|[ts [t0 d]] w IH]; cbn [first_unknown]; [done|].
  destruct (known_category t0) eqn:Hk.
  - intros H. destruct (IH H) as (? & ts' & d' & Hin). split; [done|].
    exists ts', d'. by right.
  - intros [= <-]. split; [done|]. exists ts, d. left.
Qed.

(** The loop of the formatter, in closed form. *)
Lemma format_events_eq result w :
  format_events result w =
    match first_unknown w with
    | Some t => FmtRaise (RuntimeError ("Unknown detection event " +:+ t))
    | None => FmtStr (result +:+ concat_lines ((λ x, event_line x.2) <$> w))
    end.
Proof.
  revert result. induction w as [|[ts [t d]] w IH]; intros result.
  - cbn. by rewrite string_app_nil_r.
  - cbn [format_events first_unknown fmap list_fmap concat_lines foldr snd].
    fold (concat_lines ((λ x : stamped, event_line x.2) <$> w)).
    unfold known_category, known_categories, event_line, category_phrase.
    cbn [in_list existsb fst snd].
    unfold in_list, net_types. cbn [existsb].
    destruct (String.eqb t "M") eqn:E1; cbn [orb];
      [rewrite IH; destruct (first_unknown w); [done|];
       by rewrite !string_app_assoc|].
    destruct (String.eqb t "C") eqn:E2; cbn [orb];
      [rewrite IH; destruct (first_unknown w); [done|];
       by rewrite !string_app_assoc|].
    destruct (String.eqb t "B") eqn:E3; cbn [orb];
      [rewrite IH; destruct (first_unknown w); [done|];
       by rewrite !string_app_assoc|].
    destruct (String.eqb t "LocationTimeStopped") eqn:E4; cbn [orb];
      [rewrite IH; destruct (first_unknown w); [done|];
       by rewrite !string_app_assoc|].
    destruct (String.eqb t "NetTimestamp"), (String.eqb t "NetUsage"),
      (String.eqb t "NetFirst"), (String.eqb t "NetTimestamp2"); cbn [orb];
      try done;
      rewrite IH; destruct (first_unknown w); try done;
      by rewrite !string_app_assoc.
Qed.

(** C8.  For a detection tagged 'heuristics': when some event of its
    evidence window has a category outside the known set, formatting
    raises [RuntimeError] (naming the first such category) and returns
    no string; when every event has a known category, it returns the
    header followed by one line per event, each made of the phrase of
    the event's category and the event's detail. *)
Theorem formatter_rejects_unknown_category (w : window) :
  ((∃ ts e, (ts, e) ∈ w ∧ known_category e.1 = false) →
   ∃ t, known_category t = false
        ∧ (∃ ts d, (ts, (t, d)) ∈ w)
        ∧ detection_to_string (Det2 "heuristics" w)
          = FmtRaise (RuntimeError ("Unknown detection event " +:+ t)))
  ∧ ((∀ ts e, (ts, e) ∈ w → known_category e.1 = true) →
     ∃ lines, length lines = length w
              ∧ lines = (λ x, event_line x.2) <$> w
              ∧ detection_to_string (Det2 "heuristics" w)
                = FmtStr (heuristics_header +:+ concat_lines lines)).
Proof.
  unfold detection_to_string. cbn [det_tag].
  change (String.eqb "heuristics" "exact") with false.
  change (String.eqb "heuristics" "heuristics") with true. cbv iota.
  rewrite format_events_eq. split.
  - intros (ts & e & Hin & Hk).
    destruct (first_unknown w) as [t|] eqn:Hf.
    + destruct (first_unknown_Some _ _ Hf) as [Hk' Hin']. by exists t.
    + rewrite (proj1 (first_unknown_None w) Hf ts e Hin) in Hk. discriminate.
  - intros Hall. apply first_unknown_None in Hall as ->.
    eexists. split; [|split; reflexivity]. by rewrite length_fmap.
Qed.

Lemma formatter_rejects_unknown_category_witness :
  (∃ t, detection_to_string (Det2 "heuristics" unknown_category_window)
        = FmtRaise (RuntimeError ("Unknown detection event " +:+ t)))
  ∧ ∃ lines, length lines = 2%nat
             ∧ detection_to_string (Det2 "heuristics" two_class_window)
               = FmtStr (heuristics_header +:+ concat_lines lines).
Proof.
  split.
  - destruct (proj1 (formatter_rejects_unknown_category unknown_category_window))
      as (t & _ & _ & Hfmt).
    + exists 130%Q, ("Reboot", "launchd"). split; [|reflexivity].
      right. left.
    + exists t. exact Hfmt.
  - destruct (proj2 (formatter_rejects_unknown_category two_class_window))
      as (lines & Hlen & _ & Hfmt).
    + intros ts e Hin. unfold two_class_window in Hin.
      apply elem_of_cons in Hin as [[= _ ->]|Hin]; [reflexivity|].
      apply elem_of_cons in Hin as [[= _ ->]|Hin]; [reflexivity|].
      by apply elem_of_nil in Hin.
    + exists lines. split; [exact Hlen|exact Hfmt].
Defined.

(** ** The exact matcher *)

Lemma Qeq_bool_true_trans a b c :
  Qeq_bool a b = true → Qeq_bool a c = Qeq_bool b c.
Proof.
  intros Hab. apply Qeq_bool_iff in Hab. apply Bool.eq_iff_eq_true.
  rewrite !Qeq_bool_iff. by rewrite Hab.
Qed.


















(** C2 (defect).  A 'BackupAgent' entry of the property list is recorded
    both as an exact detection and as a timeline event.  A 'BackupAgent'
    row of the usage database is recorded as exact detections only: the
    timeline is left as it was, because the timeline appends sit in the
    [elif] branch of the implicit list. *)
Theorem exact_row_not_fed_to_timeline :
  (∀ t self,
     baseline_step ("BackupAgent", Some t) self
     = Normal (append_timeline t ("NetUsage", "BackupAgent")
                 (append_detection t (Det3 "exact" "NetUsage" "BackupAgent") self)))
  ∧ (∀ first proc bundle pk ts self,
       timeline (exec_state
                   (datausage_step (DbRow first proc (Some "BackupAgent") bundle pk ts)
                      self))
       = timeline self)
  ∧ datausage_step
      (DbRow (Some 100%Q) (Some 200%Q) (Some "BackupAgent") None (Some 1%Z)
         (Some 300%Q)) init
    = Normal {| timeline := [];
                detections :=
                  [ (978307300%Q, [Det3 "exact" "NetFirst" "BackupAgent"]);
                    (978307400%Q, [Det3 "exact" "NetTimestamp" "BackupAgent"]);
                    (978307500%Q, [Det3 "exact" "NetTimestamp2" "BackupAgent"]) ] |}.
Proof.
  split; [done|]. split; [|by vm_compute].
  intros first proc bundle pk ts self. unfold datausage_step.
  cbn [row_procname row_first_timestamp row_proc_timestamp row_timestamp].
  change (in_list "BackupAgent" process_IOCs_exact) with true. cbv iota.
  destruct first, proc, ts; reflexivity.
Qed.

(** ** What the scan puts in the timeline and in the registry *)

Lemma all_entries_append_map {V : Type} (P : V → Prop) k v m :
  P v → all_entries P m → all_entries P (append_map k v m).
Proof.
  intros Hv. unfold all_entries. induction m as [|[k' vs] m IH]; cbn [append_map].
  - intros _. by repeat constructor.
  - intros [Hvs Hm]%Forall_cons. destruct (Qeq_bool k' k).
    + constructor; [|done]. cbn [snd] in *. apply Forall_app. by split; [|repeat constructor].
    + constructor; [done|by apply IH].
Qed.

Lemma all_entries_getitem {V : Type} (P : V → Prop) k m :
  all_entries P m → Forall P (getitem k m).
Proof.
  unfold all_entries. induction m as [|[k' vs] m IH]; cbn [getitem]; [done|].
  intros [Hvs Hm]%Forall_cons. destruct (Qeq_bool k' k); [done|by apply IH].
Qed.

Lemma append_timeline_invariant t e self :
  known_category e.1 = true → scan_invariant self →
  scan_invariant (append_timeline t e self).
Proof.
  intros He [Ht Hd]. split; [|done]. by apply all_entries_append_map.
Qed.

Lemma append_detection_invariant t d self :
  renderable d → scan_invariant self →
  scan_invariant (append_detection t d self).
Proof.
  intros Hr [Ht Hd]. split; [done|]. by apply all_entries_append_map.
Qed.

Lemma append_stat_events_invariant s rel_path self :
  scan_invariant self → scan_invariant (append_stat_events s rel_path self).
Proof.
  intros H. unfold append_stat_events.
  by repeat apply append_timeline_invariant.
Qed.

Lemma check_sms_attachments_invariant walk self :
  scan_invariant self → scan_invariant (_check_sms_attachments walk self).
Proof.
  unfold _check_sms_attachments. revert self.
  induction walk as [|e walk IH]; intros self H; [done|].
  cbn [foldl]. apply IH.
  destruct (_ <=? _)%nat; [done|].
  destruct (walk_stat e); [|done]. by apply append_stat_events_invariant.
Qed.

Lemma check_system_plists_invariant plists self :
  scan_invariant self → scan_invariant (_check_system_plists plists self).
Proof.
  unfold _check_system_plists. revert self.
  induction plists as [|p plists IH]; intros self H; [done|].
  cbn [foldl]. apply IH.
  destruct (probe_exists p); [|done].
  destruct (probe_stat p); [|done]. by apply append_stat_events_invariant.
Qed.

Lemma for_each_invariant {A : Type} (body : A → checker → exec) l self :
  (∀ x s, scan_invariant s → scan_invariant (exec_state (body x s))) →
  scan_invariant self → scan_invariant (exec_state (for_each body l self)).
Proof.
  intros Hbody. revert self. induction l as [|x l IH]; intros self H; [done|].
  cbn [for_each]. specialize (Hbody x self H).
  destruct (body x self) as [s|s]; [by apply IH|done].
Qed.

Lemma andthen_invariant x f :
  scan_invariant (exec_state x) →
  (∀ s, scan_invariant s → scan_invariant (exec_state (f s))) →
  scan_invariant (exec_state (andthen x f)).
Proof. destruct x as [s|s]; cbn [andthen exec_state]; eauto. Qed.

Lemma append_timeline_at_invariant ts e self :
  known_category e.1 = true → scan_invariant self →
  scan_invariant (exec_state (append_timeline_at ts e self)).
Proof.
  intros He H. destruct ts; cbn [append_timeline_at exec_state]; [|done].
  by apply append_timeline_invariant.
Qed.

Lemma append_detection_at_invariant ts d self :
  renderable d → scan_invariant self →
  scan_invariant (exec_state (append_detection_at ts d self)).
Proof.
  intros Hd H. destruct ts; cbn [append_detection_at exec_state]; [|done].
  by apply append_detection_invariant.
Qed.

Lemma baseline_step_invariant entry self :
  scan_invariant self → scan_invariant (exec_state (baseline_step entry self)).
Proof.
  intros H. destruct entry as [package ts]. unfold baseline_step.
  apply andthen_invariant.
  - destruct (in_list package process_IOCs_exact); [|done].
    apply append_detection_at_invariant; [constructor|done].
  - intros s Hs. destruct (_ || _); [|done].
    by apply append_timeline_at_invariant.
Qed.

Lemma datausage_step_invariant row self :
  scan_invariant self → scan_invariant (exec_state (datausage_step row self)).
Proof.
  intros H. unfold datausage_step.
  destruct (row_procname row) as [name|]; [|done].
  destruct (in_list name process_IOCs_exact).
  - apply andthen_invariant;
      [apply append_detection_at_invariant; [constructor|done]|].
    intros s Hs. apply andthen_invariant;
      [apply append_detection_at_invariant; [constructor|done]|].
    intros s' Hs'. destruct (row_timestamp row); [|done].
    apply append_detection_at_invariant; [constructor|done].
  - destruct (in_list name process_IOCs_implicit); [|done].
    apply andthen_invariant; [by apply append_timeline_at_invariant|].
    intros s Hs. apply andthen_invariant; [by apply append_timeline_at_invariant|].
    intros s' Hs'. destruct (row_timestamp row); [|done].
    by apply append_timeline_at_invariant.
Qed.

Lemma location_step_invariant entry self :
  scan_invariant self → scan_invariant (exec_state (location_step entry self)).
Proof.
  intros H. destruct entry as [package stopped]. unfold location_step.
  destruct (in_list package location_client_IOCs); [|done].
  destruct stopped; [|done]. by apply append_timeline_invariant.
Qed.

Lemma try_for_each_invariant {A : Type} (body : A → checker → exec) src self :
  (∀ x s, scan_invariant s → scan_invariant (exec_state (body x s))) →
  scan_invariant self → scan_invariant (try_for_each body src self).
Proof.
  intros Hbody H. destruct src as [l|]; [|done]. by apply for_each_invariant.
Qed.

Lemma check_analytics_data_invariant inp self :
  scan_invariant self → scan_invariant (_check_analytics_data inp self).
Proof.
  intros H. unfold _check_analytics_data.
  apply try_for_each_invariant; [apply location_step_invariant|].
  apply try_for_each_invariant; [apply datausage_step_invariant|].
  apply try_for_each_invariant; [apply baseline_step_invariant|done].
Qed.

Lemma expand_timeline_known tl :
  all_entries (λ e : event, known_category e.1 = true) tl →
  known_events (expand_timeline tl).
Proof.
  intros H. unfold known_events, expand_timeline. apply Forall_forall.
  intros x Hx. apply list_elem_of_In, in_flat_map in Hx as (k & _ & Hx).
  apply list_elem_of_In, list_elem_of_fmap in Hx as (e & -> & He).
  cbn [snd]. by apply (proj1 (Forall_forall _ _) (all_entries_getitem _ k tl H)).
Qed.

Lemma window_at_known (expanded : window) i w :
  known_events expanded → window_at expanded i = Some w → known_events w.
Proof.
  unfold window_at, known_events. intros H.
  destruct (expanded !! i) as [[ts0 e0]|]; [|done]. intros [= <-].
  destruct (trim_spec ts0 (take events_max (drop i expanded))) as (n & _ & -> & _).
  by apply Forall_take, Forall_take, Forall_drop.
Qed.

(** [run_heuristics] leaves the checker as it was or appends one
    detection tagged 'heuristics' that carries the window. *)
Lemma run_heuristics_cases (w : window) self r self' :
  run_heuristics w self = Some (r, self') →
  self' = self ∨ ∃ ts0, self' = append_detection ts0 (Det2 "heuristics" w) self.
Proof.
  destruct w as [|[ts0 e0] w]; [done|].
  rewrite (run_heuristics_unfold ((ts0, e0) :: w) self ts0 e0 eq_refl).
  destruct (heuristics_loop _ _); [|intros [= _ <-]; by left]. cbv zeta.
  destruct (negb _); [intros [= _ <-]; by left|].
  destruct (_ <=? _)%nat; intros [= _ <-]; [right; eauto|by left].
Qed.

Lemma run_heuristics_invariant (w : window) self r self' :
  known_events w → scan_invariant self →
  run_heuristics w self = Some (r, self') → scan_invariant self'.
Proof.
  intros Hw H [->|[ts0 ->]]%run_heuristics_cases; [done|].
  apply append_detection_invariant; [by constructor|done].
Qed.

Lemma scan_loop_invariant (expanded : window) indices self self' :
  known_events expanded → scan_invariant self →
  scan_loop expanded indices self = inr self' →
  scan_invariant self' ∧ timeline self' = timeline self.
Proof.
  intros Hk. revert self. induction indices as [|i rest IH]; intros self H.
  - by intros [= <-].
  - cbn [scan_loop].
    destruct (window_at expanded i) as [w|] eqn:Hw; [|done].
    destruct (run_heuristics w self) as [[r s]|] eqn:Hrun; [|done].
    intros Hrest. destruct (IH s) as [Hinv Htl]; [|done|].
    + eapply run_heuristics_invariant; [|done|done].
      by eapply window_at_known.
    + split; [done|]. rewrite Htl.
      by apply run_heuristics_cases in Hrun as [->|[ts0 ->]].
Qed.

Lemma scan_filesystem_invariant inp self self' :
  scan_invariant self → scan_filesystem inp self = inr self' →
  scan_invariant self'.
Proof.
  intros H. unfold scan_filesystem.
  destruct (negb (sms_attachments_isdir inp)); [done|]. cbv zeta.
  intros Hloop. eapply scan_loop_invariant; [| |exact Hloop].
  - apply expand_timeline_known.
    by apply check_analytics_data_invariant, check_system_plists_invariant,
      check_sms_attachments_invariant.
  - by apply check_analytics_data_invariant, check_system_plists_invariant,
      check_sms_attachments_invariant.
Qed.

(** Once the attachment directory is there, the scan returns. *)
Lemma scan_filesystem_returns inp self :
  sms_attachments_isdir inp = true → ∃ self', scan_filesystem inp self = inr self'.
Proof.
  intros Hdir. unfold scan_filesystem. rewrite Hdir. cbn [negb]. cbv zeta.
  by apply scan_loop_returns.
Qed.

Lemma renderable_to_string d :
  renderable d →
  (det_tag d = "exact" ∨ det_tag d = "heuristics")
  ∧ ∃ s, detection_to_string d = FmtStr s.
Proof.
  intros [source ident|w Hw].
  - split; [by left|]. by eexists.
  - split; [by right|].
    assert (Hnone : first_unknown w = None).
    { apply first_unknown_None. intros ts e Hin.
      by apply (proj1 (Forall_forall _ _) Hw (ts, e)). }
    unfold detection_to_string. cbn [det_tag].
    change (String.eqb "heuristics" "exact") with false.
    change (String.eqb "heuristics" "heuristics") with true. cbv iota.
    rewrite format_events_eq, Hnone. by eexists.
Qed.

(** ** The string split, checked against [join] *)

Lemma rev_onto_app acc s : PyStr.rev_onto acc s = PyStr.rev_onto "" s +:+ acc.
Proof.
  revert acc. induction s as [|c s IH]; intros acc; [reflexivity|].
  cbn [PyStr.rev_onto]. rewrite (IH (String c acc)), (IH (String c "")).
  by rewrite string_app_assoc.
Qed.

Lemma prefix_split sep s :
  String.prefix sep s = true → ∃ rest, s = sep +:+ rest.
Proof.
  revert s. induction sep as [|a sep IH]; intros s H.
  - by exists s.
  - destruct s as [|b s]; [done|]. cbn [String.prefix] in H.
    destruct (ascii_dec a b) as [->|]; [|done].
    destruct (IH s H) as [rest ->]. by exists rest.
Qed.

(** Skipping the rest of an occurrence. *)
Lemma split_aux_skip sep cur p s :
  PyStr.split_aux sep (String.length p) cur (p +:+ s) = PyStr.split_aux sep 0 cur s.
Proof. induction p as [|c p IH]; [reflexivity|]. exact IH. Qed.

Lemma join_cons sep p ps :
  (1 <= length ps)%nat → PyStr.join sep (p :: ps) = p +:+ sep +:+ PyStr.join sep ps.
Proof. destruct ps; [simpl; lia|done]. Qed.

Lemma join_split_aux sep n : sep ≠ "" → ∀ s cur,
  (String.length s <= n)%nat →
  PyStr.join sep (PyStr.split_aux sep 0 cur s) = PyStr.rev_onto "" cur +:+ s.
Proof.
  intros Hsep. induction n as [|n IH]; intros s cur Hlen.
  - destruct s; [|simpl in Hlen; lia]. cbn. by rewrite string_app_nil_r.
  - destruct s as [|c s]; [cbn; by rewrite string_app_nil_r|].
    cbn [PyStr.split_aux]. cbn [String.length] in Hlen.
    destruct (String.prefix sep (String c s)) eqn:Hp.
    + destruct (prefix_split _ _ Hp) as [rest Hrest].
      destruct sep as [|a sep]; [done|]. injection Hrest as -> ->.
      replace (String.length (String a sep) - 1)%nat with (String.length sep)
        by (simpl; lia).
      change (String a sep +:+ rest) with (String a (sep +:+ rest)) in *.
      rewrite split_aux_skip.
      rewrite join_cons by apply split_aux_length.
      rewrite IH; [done|].
      assert (Hle : (String.length rest <= String.length (sep +:+ rest))%nat).
      { clear. induction sep as [|x sep IHs]; [done|].
        change (String.length (String x sep +:+ rest))
          with (S (String.length (sep +:+ rest))). lia. }
      change (String.length (String a (sep +:+ rest)))
        with (S (String.length (sep +:+ rest))) in Hlen. lia.
    + rewrite IH by lia. cbn [PyStr.rev_onto].
      rewrite (rev_onto_app (String c "")). by rewrite string_app_assoc.
Qed.

(** Joining the pieces of [s.split(sep)] with [sep] gives [s] back. *)
Lemma join_split sep s :
  sep ≠ "" → PyStr.join sep (PyStr.split sep s) = s.
Proof.
  intros Hsep. unfold PyStr.split.
  by rewrite (join_split_aux sep (String.length s) Hsep s "").
Qed.

Example path_parts_directory :
  path_parts "/private/var/mobile/Library/SMS/Attachments/ff/15" = ["ff"; "15"].
Proof. reflexivity. Qed.

Example path_parts_attachment_file :
  path_parts "private/var/mobile/Library/SMS/Attachments/ff/15/IMG_0001.jpeg"
  = ["ff"; "15"; "IMG_0001.jpeg"].
Proof. reflexivity. Qed.

(** ** Appending to a dictionary and reading it back *)

Lemma Qeq_bool_false_trans a b c :
  Qeq_bool a b = true → Qeq_bool a c = false → Qeq_bool b c = false.
Proof. intros Hab Hac. by rewrite <- (Qeq_bool_true_trans a b c Hab). Qed.

Lemma getitem_append_map_any {V : Type} k k' (v : V) m :
  getitem k' (append_map k v m)
  = getitem k' m ++ (if Qeq_bool k k' then [v] else []).
Proof.
  induction m as [|[k0 vs] m IH]; cbn [append_map getitem].
  - by destruct (Qeq_bool k k').
  - destruct (Qeq_bool k0 k) eqn:Hk; cbn [getitem].
    + rewrite <- (Qeq_bool_true_trans _ _ k' Hk).
      destruct (Qeq_bool k0 k'); [done|by rewrite app_nil_r].
    + destruct (Qeq_bool k0 k') eqn:Hk'; [|done].
      assert (Qeq_bool k k' = false) as ->; [|by rewrite app_nil_r].
      rewrite Qeq_bool_comm. apply (Qeq_bool_false_trans k0); [done|].
      done.
Qed.

(** X1.  After [append_map timestamp item map], looking up a key
    numerically equal to [timestamp] gives the items it held before,
    in the same order, followed by [item]; every other key gives what
    it gave before; the dictionary holds exactly one item more; and it
    still has one entry per key. *)
Theorem append_map_lookup {V : Type} (k k' : Q) (v : V) (m : list (Q * list V)) :
  getitem k (append_map k v m) = getitem k m ++ [v]
  ∧ getitem k' (append_map k v m)
    = (if Qeq_bool k k' then getitem k' m ++ [v] else getitem k' m)
  ∧ registry_size (append_map k v m) = S (registry_size m)
  ∧ (keys_distinct m → keys_distinct (append_map k v m)).
Proof.
  split; [|split; [|split]].
  - by rewrite getitem_append_map_any, Qeq_bool_refl.
  - rewrite getitem_append_map_any.
    destruct (Qeq_bool k k'); [done|by rewrite app_nil_r].
  - apply registry_size_append_map.
  - apply append_map_keys_distinct.
Qed.

Lemma append_map_lookup_witness :
  getitem 2 (append_map (4 # 2) "b" [(1%Q, ["x"]); (2%Q, ["a"])]) = ["a"; "b"]
  ∧ getitem 1 (append_map (4 # 2) "b" [(1%Q, ["x"]); (2%Q, ["a"])]) = ["x"]
  ∧ keys_distinct (append_map (4 # 2) "b" [(1%Q, ["x"]); (2%Q, ["a"])]).
Proof.
  destruct (append_map_lookup (4 # 2) 2 "b" [(1%Q, ["x"]); (2%Q, ["a"])])
    as (_ & H2 & _ & Hd).
  destruct (append_map_lookup (4 # 2) 1 "b" [(1%Q, ["x"]); (2%Q, ["a"])])
    as (_ & H1 & _ & _).
  split; [exact H2|]. split; [exact H1|].
  apply Hd. cbn [keys_distinct]. split; [|split; [|exact I]].
  - apply Forall_cons. split; [cbn; unfold Qeq; cbn; lia|apply Forall_nil; exact I].
  - apply Forall_nil. exact I.
Defined.

(** ** The expanded timeline holds every stored event once, in order *)

Lemma insert_key_perm k l : insert_key k l ≡ₚ k :: l.
Proof.
  induction l as [|x l IH]; cbn [insert_key]; [done|].
  destruct (Qle_bool k x); [done|]. rewrite IH. apply Permutation_swap.
Qed.

Lemma sorted_keys_perm {V : Type} (m : list (Q * list V)) :
  sorted_keys m ≡ₚ m.*1.
Proof.
  unfold sorted_keys. induction (m.*1) as [|k ks IH]; cbn [foldr]; [done|].
  by rewrite insert_key_perm, IH.
Qed.

(** With one entry per key, looking up the key of an entry gives the
    entry's list. *)
Lemma getitem_entry {V : Type} (m : list (Q * list V)) k vs :
  keys_distinct m → (k, vs) ∈ m → getitem k m = vs.
Proof.
  induction m as [|[k0 v0] m IH]; cbn [keys_distinct getitem].
  - by intros _ ?%elem_of_nil.
  - intros [Hfresh Hm] [[= -> ->]|Hin]%elem_of_cons.
    + by rewrite Qeq_bool_refl.
    + assert (Qeq_bool k0 k = false) as ->; [|by apply IH].
      apply not_true_iff_false. intros Heq%Qeq_bool_iff.
      by apply (proj1 (Forall_forall _ _) Hfresh (k, vs) Hin).
Qed.

Lemma flat_map_ext_elem {A B : Type} (f g : A → list B) l :
  (∀ x, x ∈ l → f x = g x) → flat_map f l = flat_map g l.
Proof.
  induction l as [|x l IH]; [done|]. intros H. cbn [flat_map].
  rewrite (H x), IH; [done| |left]. intros y Hy. apply H. by right.
Qed.

Lemma flat_map_fmap {A B C : Type} (h : A → B) (f : B → list C) l :
  flat_map f (h <$> l) = flat_map (λ x, f (h x)) l.
Proof. induction l as [|x l IH]; [done|]. cbn [flat_map fmap list_fmap]. by rewrite <- IH. Qed.





(** ** The outcome of [run_heuristics] on every window *)

Lemma forallb_false_elem {A : Type} (f : A → bool) l :
  forallb f l = false → ∃ x, x ∈ l ∧ f x = false.
Proof.
  induction l as [|x l IH]; [done|]. cbn [forallb].
  destruct (f x) eqn:Hx.
  - intros (y & Hy & Hfy)%IH. exists y. split; [by right|done].
  - intros _. exists x. split; [left|done].
Qed.

(** A loop that ran to its end on a window with incomplete evidence
    leaves a directory without its 'M' or its 'C'. *)
Lemma heuristics_loop_incomplete w st' :
  heuristics_loop (LoopState ∅ ∅) w = Some st' →
  attachments_complete w = false →
  dirs_complete (sms_attachment_directories st') = false.
Proof.
  intros Hloop Hinc. apply not_true_iff_false. intros Hcomplete.
  apply forallb_false_elem in Hinc as ([ts [t p]] & Hin & Hx). cbn [snd] in Hx.
  apply orb_false_iff in Hx as [Ha Hseen]. apply negb_false_iff in Ha.
  assert (Htracked : is_Some (sms_attachment_directories st' !! p)).
  { apply (heuristics_loop_is_tracked _ _ _ Hloop). exists t. split; [|done].
    apply seen_true. eauto. }
  destruct Htracked as [v Hv].
  destruct (proj1 (dirs_complete_true _) Hcomplete p v Hv) as [HM HC].
  pose proof (heuristics_loop_record w st' p "M" Hloop) as RM.
  pose proof (heuristics_loop_record w st' p "C" Hloop) as RC.
  rewrite Hv in RM, RC. cbn [from_option id] in RM, RC.
  apply RM in HM as [HM _]. apply RC in HC as [HC _].
  rewrite HM, HC in Hseen. discriminate.
Qed.

Lemma run_heuristics_closed (w : window) (self : checker) ts0 e0 :
  head w = Some (ts0, e0) →
  run_heuristics w self
  = Some (returned_value w,
          if detects w then append_detection ts0 (Det2 "heuristics" w) self
          else self).
Proof.
  intros Hhd. rewrite (run_heuristics_unfold _ _ _ _ Hhd).
  unfold returned_value, detects.
  destruct (window_disqualified w) eqn:Hq; cbn [negb andb].
  - by rewrite (proj2 (heuristics_loop_disqualified (LoopState ∅ ∅) w) Hq).
  - destruct (attachments_complete w) eqn:Hc; cbn [andb].
    + destruct (heuristics_loop_complete w Hq Hc) as (st' & Hl & Hd & Hs & He).
      rewrite Hl. cbv zeta. rewrite Hd, Hs, He. cbn [negb].
      destruct (size_classes_of_flags (has_event is_generic_file_event w)
                  (has_event is_net_event w) (has_event is_location_event w)
                  (has_event is_attachment_event w)) as [Hsz _].
      rewrite Hsz. fold (other_class_count w). fold (class_count w).
      by destruct (2 <=? class_count w)%nat.
    + destruct (heuristics_loop (LoopState ∅ ∅) w) as [st'|] eqn:Hloop.
      * cbv zeta. by rewrite (heuristics_loop_incomplete w st' Hloop Hc).
      * apply heuristics_loop_disqualified in Hloop. congruence.
Qed.

(** X3.  On every non-empty window [run_heuristics] has one of three
    outcomes, decided by the events alone: it returns from inside the
    loop when an attachment path is too deep; otherwise it returns
    [False] when some attachment directory lacks its 'M' or its 'C'
    event; otherwise it records the window, under its first timestamp,
    exactly when at least two classes are present.  In the first two
    cases, and below two classes, the checker is left as it was. *)
Theorem run_heuristics_outcome (w : window) (self : checker) (ts0 : Q) (e0 : event) :
  head w = Some (ts0, e0) →
  run_heuristics w self
  = Some (returned_value w,
          if detects w then append_detection ts0 (Det2 "heuristics" w) self
          else self)
  ∧ (returned_value w = RetFalse ↔
     window_disqualified w = false ∧ attachments_complete w = false)
  ∧ (detects w = true ↔
     window_disqualified w = false ∧ attachments_complete w = true
     ∧ (2 <= class_count w)%nat).
Proof.
  intros Hhd. split; [by apply (run_heuristics_closed w self ts0 e0)|]. split.
  - unfold returned_value.
    destruct (window_disqualified w), (attachments_complete w); split;
      try done; intros [? ?]; done.
  - unfold detects. rewrite !andb_true_iff, negb_true_iff, Nat.leb_le. tauto.
Qed.

Lemma run_heuristics_outcome_witness :
  run_heuristics missing_modified_window init = Some (RetFalse, init).
Proof.
  destruct (run_heuristics_outcome missing_modified_window init 100%Q
              ("C", "private/var/mobile/Library/SMS/Attachments/ff/15"))
    as (Hrun & _ & _); [reflexivity|].
  exact Hrun.
Defined.

(** ** The outcome does not depend on order, timestamps or repetition *)

Lemma has_event_events P w :
  has_event P w = true ↔ ∃ e : event, e ∈ w.*2 ∧ P e = true.
Proof.
  rewrite has_event_true. split.
  - intros (ts & e & Hin & HP). exists e. split; [|done].
    apply list_elem_of_fmap. by exists (ts, e).
  - intros (e & ([ts e'] & -> & Hin)%list_elem_of_fmap & HP). eauto.
Qed.

Lemma has_event_same P w1 w2 :
  same_events w1 w2 → has_event P w1 = has_event P w2.
Proof.
  intros Hs. apply Bool.eq_iff_eq_true. rewrite !has_event_events.
  split; intros (e & Hin & HP); exists e; (split; [by apply Hs|done]).
Qed.

Lemma attachments_complete_events w :
  attachments_complete w = true ↔
  ∀ e : event, e ∈ w.*2 → is_attachment_event e = true →
               seen "M" e.2 w = true ∧ seen "C" e.2 w = true.
Proof.
  rewrite attachments_complete_true. split.
  - intros H e ([ts [t p]] & -> & Hin)%list_elem_of_fmap Ha. by apply (H ts t p).
  - intros H ts t p Hin Ha. apply (H (t, p)); [|done].
    apply list_elem_of_fmap. by exists (ts, (t, p)).
Qed.

Lemma attachments_complete_same w1 w2 :
  same_events w1 w2 → attachments_complete w1 = attachments_complete w2.
Proof.
  intros Hs. apply Bool.eq_iff_eq_true. rewrite !attachments_complete_events.
  unfold seen.
  split; intros H e Hin Ha.
  - rewrite <- !(has_event_same _ w1 w2 Hs). apply H; [by apply Hs|done].
  - rewrite !(has_event_same _ w1 w2 Hs). apply H; [by apply Hs|done].
Qed.

Lemma outcome_same w1 w2 :
  same_events w1 w2 →
  returned_value w1 = returned_value w2 ∧ detects w1 = detects w2.
Proof.
  intros Hs. unfold returned_value, detects, window_disqualified, class_count,
    other_class_count.
  by rewrite !(has_event_same _ w1 w2 Hs), (attachments_complete_same w1 w2 Hs).
Qed.

(** X4.  Two non-empty windows that hold the same events, in any order,
    with any timestamps and any number of repetitions, get the same
    return value from [run_heuristics], and one is recorded exactly when
    the other is. *)
Theorem run_heuristics_order_independent (w1 w2 : window) (self : checker)
    (t1 t2 : Q) (e1 e2 : event) :
  head w1 = Some (t1, e1) →
  head w2 = Some (t2, e2) →
  same_events w1 w2 →
  ∃ r recorded,
    run_heuristics w1 self
    = Some (r, if recorded : bool
               then append_detection t1 (Det2 "heuristics" w1) self else self)
    ∧ run_heuristics w2 self
      = Some (r, if recorded
                 then append_detection t2 (Det2 "heuristics" w2) self else self).
Proof.
  intros H1 H2 Hs. destruct (outcome_same w1 w2 Hs) as [Hr Hd].
  exists (returned_value w1), (detects w1). split.
  - by apply (run_heuristics_closed w1 self t1 e1).
  - rewrite Hr, Hd. by apply (run_heuristics_closed w2 self t2 e2).
Qed.

Lemma run_heuristics_order_independent_witness :
  ∃ r recorded,
    run_heuristics two_class_window init
    = Some (r, if recorded : bool
               then append_detection 100 (Det2 "heuristics" two_class_window) init
               else init)
    ∧ run_heuristics shuffled_window init
      = Some (r, if recorded
                 then append_detection 900 (Det2 "heuristics" shuffled_window) init
                 else init).
Proof.
  apply (run_heuristics_order_independent two_class_window shuffled_window init
           100%Q 900%Q ("M", "Preferences/com.apple.ImageIO.plist")
           ("NetUsage", "nehelper")); [reflexivity|reflexivity|].
  intros e. unfold two_class_window, shuffled_window.
  cbn [fmap list_fmap snd]. rewrite !elem_of_cons, !elem_of_nil. tauto.
Defined.

(** ** On the sorted timeline the trim keeps every event in range *)



Lemma filter_keep_all {A : Type} (f : A → bool) l :
  (∀ x, x ∈ l → f x = true) → List.filter f l = l.
Proof.
  induction l as [|x l IH]; [done|]. intros H. cbn [List.filter].
  rewrite (H x) by left. f_equal. apply IH. intros y Hy. apply H. by right.
Qed.






(** ** The scan as a sequence of appends *)

Lemma in_exact_list name :
  in_list name process_IOCs_exact = true → name = "BackupAgent".
Proof.
  unfold in_list, process_IOCs_exact. cbn [existsb]. rewrite orb_false_r.
  apply String.eqb_eq.
Qed.

Lemma collect_event_rtc t e self :
  known_category e.1 = true → rtc collect_step self (append_timeline t e self).
Proof. intros He. apply rtc_once. by constructor. Qed.

Lemma append_stat_events_collects s rel_path self :
  rtc collect_step self (append_stat_events s rel_path self).
Proof.
  unfold append_stat_events.
  etrans; [|by apply collect_event_rtc].
  etrans; [|by apply collect_event_rtc].
  by apply collect_event_rtc.
Qed.

Lemma check_sms_attachments_collects walk self :
  rtc collect_step self (_check_sms_attachments walk self).
Proof.
  unfold _check_sms_attachments. revert self.
  induction walk as [|e walk IH]; intros self; [done|].
  cbn [foldl]. etrans; [|apply IH].
  destruct (_ <=? _)%nat; [done|].
  destruct (walk_stat e); [|done]. apply append_stat_events_collects.
Qed.

Lemma check_system_plists_collects plists self :
  rtc collect_step self (_check_system_plists plists self).
Proof.
  unfold _check_system_plists. revert self.
  induction plists as [|p plists IH]; intros self; [done|].
  cbn [foldl]. etrans; [|apply IH].
  destruct (probe_exists p); [|done].
  destruct (probe_stat p); [|done]. apply append_stat_events_collects.
Qed.

Lemma for_each_collects {A : Type} (body : A → checker → exec) l self :
  (∀ x s, rtc collect_step s (exec_state (body x s))) →
  rtc collect_step self (exec_state (for_each body l self)).
Proof.
  intros Hbody. revert self. induction l as [|x l IH]; intros self; [done|].
  cbn [for_each]. specialize (Hbody x self).
  destruct (body x self) as [s|s]; [|done]. etrans; [exact Hbody|apply IH].
Qed.

Lemma andthen_collects self x f :
  rtc collect_step self (exec_state x) →
  (∀ s, rtc collect_step s (exec_state (f s))) →
  rtc collect_step self (exec_state (andthen x f)).
Proof.
  intros Hx Hf. destruct x as [s|s]; cbn [andthen exec_state] in *; [|done].
  etrans; [exact Hx|apply Hf].
Qed.

Lemma append_timeline_at_collects ts e self :
  known_category e.1 = true →
  rtc collect_step self (exec_state (append_timeline_at ts e self)).
Proof.
  intros He. destruct ts; cbn [append_timeline_at exec_state]; [|done].
  by apply collect_event_rtc.
Qed.

Lemma append_exact_at_collects ts source self :
  source ∈ net_types →
  rtc collect_step self
    (exec_state (append_detection_at ts (Det3 "exact" source "BackupAgent") self)).
Proof.
  intros Hs. destruct ts; cbn [append_detection_at exec_state]; [|done].
  apply rtc_once. by constructor.
Qed.

Lemma baseline_step_collects entry self :
  rtc collect_step self (exec_state (baseline_step entry self)).
Proof.
  destruct entry as [package ts]. unfold baseline_step.
  apply andthen_collects.
  - destruct (in_list package process_IOCs_exact) eqn:Hex; [|done].
    apply in_exact_list in Hex as ->.
    apply append_exact_at_collects. unfold net_types. set_solver.
  - intros s. destruct (_ || _); [|done]. by apply append_timeline_at_collects.
Qed.

Lemma datausage_step_collects row self :
  rtc collect_step self (exec_state (datausage_step row self)).
Proof.
  unfold datausage_step. destruct (row_procname row) as [name|]; [|done].
  destruct (in_list name process_IOCs_exact) eqn:Hex.
  - apply in_exact_list in Hex as ->.
    apply andthen_collects;
      [apply append_exact_at_collects; unfold net_types; set_solver|].
    intros s. apply andthen_collects;
      [apply append_exact_at_collects; unfold net_types; set_solver|].
    intros s'. destruct (row_timestamp row); [|done].
    apply append_exact_at_collects. unfold net_types. set_solver.
  - destruct (in_list name process_IOCs_implicit); [|done].
    apply andthen_collects; [by apply append_timeline_at_collects|].
    intros s. apply andthen_collects; [by apply append_timeline_at_collects|].
    intros s'. destruct (row_timestamp row); [|done].
    by apply append_timeline_at_collects.
Qed.

Lemma location_step_collects entry self :
  rtc collect_step self (exec_state (location_step entry self)).
Proof.
  destruct entry as [package stopped]. unfold location_step.
  destruct (in_list package location_client_IOCs); [|done].
  destruct stopped; [|done]. by apply collect_event_rtc.
Qed.

Lemma try_for_each_collects {A : Type} (body : A → checker → exec) src self :
  (∀ x s, rtc collect_step s (exec_state (body x s))) →
  rtc collect_step self (try_for_each body src self).
Proof. intros Hbody. destruct src as [l|]; [|done]. by apply for_each_collects. Qed.

(** The three collectors only append timeline events of known
    categories and exact detections of 'BackupAgent'. *)
Lemma collected_collects inp self : rtc collect_step self (collected inp self).
Proof.
  unfold collected, _check_analytics_data.
  etrans; [apply check_sms_attachments_collects|].
  etrans; [apply check_system_plists_collects|].
  etrans; [apply (try_for_each_collects baseline_step), baseline_step_collects|].
  etrans; [apply (try_for_each_collects datausage_step), datausage_step_collects|].
  apply (try_for_each_collects location_step), location_step_collects.
Qed.

(** The sliding-window loop only appends windows it accepted. *)
Lemma scan_loop_hits (expanded : window) indices self self' :
  (∀ i, i ∈ indices → i ∈ anchor_indices expanded) →
  scan_loop expanded indices self = inr self' →
  rtc (heuristic_step expanded) self self'.
Proof.
  revert self. induction indices as [|i rest IH]; intros self Hall.
  - by intros [= <-].
  - cbn [scan_loop].
    destruct (window_at_anchor expanded i) as (w & anchor & e & Hw & _ & Hhd).
    { apply Hall. left. }
    rewrite Hw, (run_heuristics_closed w self anchor e Hhd).
    intros Hrest.
    assert (Hall' : ∀ j, j ∈ rest → j ∈ anchor_indices expanded).
    { intros j Hj. apply Hall. by right. }
    etrans; [|apply (IH _ Hall' Hrest)].
    destruct (detects w) eqn:Hd; [|done].
    apply rtc_once. econstructor; [apply Hall; left|done..].
Qed.

Lemma scan_filesystem_collected inp self self' :
  scan_filesystem inp self = inr self' →
  rtc (heuristic_step (expand_timeline (timeline (collected inp self))))
    (collected inp self) self'.
Proof.
  unfold scan_filesystem. destruct (negb _); [done|]. cbv zeta.
  fold (collected inp self). by apply scan_loop_hits.
Qed.

(** ** What a scan leaves in the registry *)

Lemma all_keyed_append_map {V : Type} (P : Q → V → Prop) k v m :
  (∀ k', (k' == k)%Q → P k' v) →
  all_keyed P m → all_keyed P (append_map k v m).
Proof.
  intros Hv. unfold all_keyed. induction m as [|[k0 vs] m IH]; cbn [append_map].
  - intros _ k' ds d Hin Hd.
    apply list_elem_of_singleton in Hin. injection Hin as -> ->.
    apply list_elem_of_singleton in Hd as ->. by apply Hv.
  - intros Hm.
    assert (Hm' : ∀ k ds d, (k, ds) ∈ m → d ∈ ds → P k d).
    { intros k' ds d Hin. apply (Hm k' ds). by right. }
    destruct (Qeq_bool k0 k) eqn:Hk.
    + intros k' ds d [Heq|Hin]%elem_of_cons Hd; [|by apply (Hm' k' ds)].
      injection Heq as -> ->.
      apply elem_of_app in Hd as [Hd|Hd].
      * apply (Hm k0 vs); [left|done].
      * apply list_elem_of_singleton in Hd as ->. by apply Hv, Qeq_bool_iff.
    + intros k' ds d [Heq|Hin]%elem_of_cons Hd.
      * injection Heq as -> ->. apply (Hm k0 vs); [left|done].
      * by apply (IH Hm' k' ds).
Qed.

Lemma collect_steps_recorded expanded self self' :
  rtc collect_step self self' →
  all_keyed (recorded expanded) (detections self) →
  all_keyed (recorded expanded) (detections self').
Proof.
  induction 1 as [s|s1 s2 s3 Hstep _ IH]; [done|]. intros H. apply IH.
  destruct Hstep as [t e s He|t source s Hs]; [done|].
  cbn [append_detection detections]. apply all_keyed_append_map; [|done].
  intros k' _. by constructor.
Qed.

Lemma heuristic_steps_recorded expanded self self' :
  rtc (heuristic_step expanded) self self' →
  all_keyed (recorded expanded) (detections self) →
  all_keyed (recorded expanded) (detections self')
  ∧ timeline self' = timeline self.
Proof.
  induction 1 as [s|s1 s2 s3 Hstep _ IH]; [done|]. intros H.
  destruct Hstep as [i w anchor e s Hi Hw Hhd Hd].
  destruct IH as [IH1 IH2]; [|by split].
  cbn [append_detection detections]. apply all_keyed_append_map; [|done].
  intros k' Hk. by econstructor.
Qed.

Lemma heuristic_steps_keep expanded self self' k d :
  rtc (heuristic_step expanded) self self' →
  d ∈ getitem k (detections self) → d ∈ getitem k (detections self').
Proof.
  induction 1 as [s|s1 s2 s3 Hstep _ IH]; [done|]. intros H. apply IH.
  destruct Hstep as [i w anchor e s Hi Hw Hhd Hd].
  cbn [append_detection detections]. rewrite getitem_append_map_any.
  apply elem_of_app. by left.
Qed.

(** Every accepted window of the loop is under its anchor's timestamp
    when the loop ends. *)
Lemma scan_loop_complete (expanded : window) indices self self' :
  (∀ i, i ∈ indices → i ∈ anchor_indices expanded) →
  scan_loop expanded indices self = inr self' →
  ∀ i w anchor e,
    i ∈ indices → window_at expanded i = Some w → head w = Some (anchor, e) →
    detects w = true →
    Det2 "heuristics" w ∈ getitem anchor (detections self').
Proof.
  revert self. induction indices as [|i0 rest IH]; intros self Hall Hloop i w anchor e Hi.
  { by apply elem_of_nil in Hi. }
  assert (Hall' : ∀ j, j ∈ rest → j ∈ anchor_indices expanded).
  { intros j Hj. apply Hall. by right. }
  cbn [scan_loop] in Hloop.
  destruct (window_at_anchor expanded i0) as (w0 & a0 & e0 & Hw0 & _ & Hhd0).
  { apply Hall. left. }
  rewrite Hw0, (run_heuristics_closed w0 self a0 e0 Hhd0) in Hloop.
  apply elem_of_cons in Hi as [->|Hi].
  - intros Hw Hhd Hd. rewrite Hw0 in Hw. injection Hw as ->.
    rewrite Hhd0 in Hhd. injection Hhd as -> ->. rewrite Hd in Hloop.
    apply (heuristic_steps_keep expanded
             (append_detection anchor (Det2 "heuristics" w) self) self');
      [by apply (scan_loop_hits _ rest)|].
    cbn [append_detection detections]. rewrite getitem_append_map.
    apply elem_of_app. right. left.
  - by apply (IH _ Hall' Hloop).
Qed.

Lemma scan_registry_recorded inp self' :
  scan_filesystem inp init = inr self' →
  timeline self' = timeline (collected inp init)
  ∧ all_keyed (recorded (expand_timeline (timeline self'))) (detections self').
Proof.
  intros Hscan. pose proof (scan_filesystem_collected _ _ _ Hscan) as Hhits.
  set (expanded := expand_timeline (timeline (collected inp init))) in *.
  destruct (heuristic_steps_recorded expanded _ _ Hhits) as [Hrec Htl].
  - apply (collect_steps_recorded expanded init); [apply collected_collects|].
    by intros k ds d ?%elem_of_nil.
  - split; [done|]. by rewrite Htl.
Qed.

(** X6.  After a scan from a fresh checker, the heuristic detections of
    the registry are exactly the accepted windows: each one is the
    window of an anchor of the expanded timeline for which the detection
    rule holds, stored under a key equal to the anchor's timestamp; and
    the window of every anchor for which the rule holds is stored under
    the anchor's timestamp. *)
Theorem heuristic_detections_are_accepted_windows (inp : capture) (self' : checker) :
  scan_filesystem inp init = inr self' →
  let expanded := expand_timeline (timeline self') in
  (∀ k ds tag w,
     (k, ds) ∈ detections self' → Det2 tag w ∈ ds →
     tag = "heuristics"
     ∧ ∃ i anchor e,
         i ∈ anchor_indices expanded
         ∧ window_at expanded i = Some w
         ∧ head w = Some (anchor, e)
         ∧ (k == anchor)%Q
         ∧ detects w = true)
  ∧ (∀ i w anchor e,
       i ∈ anchor_indices expanded →
       window_at expanded i = Some w →
       head w = Some (anchor, e) →
       detects w = true →
       Det2 "heuristics" w ∈ getitem anchor (detections self')).
Proof.
  intros Hscan expanded.
  destruct (scan_registry_recorded inp self' Hscan) as [Htl Hrec]. split.
  - intros k ds tag w Hk Hd. specialize (Hrec k ds _ Hk Hd).
    inversion Hrec as [|i w' anchor e Hi Hw Hhd Hka Hdet]; subst.
    split; [done|]. by exists i, anchor, e.
  - intros i w anchor e Hi Hw Hhd Hdet. subst expanded. rewrite Htl in Hi, Hw.
    revert Hscan. unfold scan_filesystem. destruct (negb _); [done|]. cbv zeta.
    fold (collected inp init). intros Hloop.
    by apply (scan_loop_complete _ _ _ _ (λ j Hj, Hj) Hloop i w anchor e).
Qed.

Lemma heuristic_detections_are_accepted_windows_witness :
  ∃ self',
    scan_filesystem detected_capture init = inr self'
    ∧ ∀ k ds tag w,
        (k, ds) ∈ detections self' → Det2 tag w ∈ ds →
        tag = "heuristics" ∧ detects w = true.
Proof.
  destruct (scan_filesystem detected_capture init) as [e|self'] eqn:Hscan;
    [by vm_compute in Hscan|].
  exists self'. split; [reflexivity|].
  intros k ds tag w Hk Hd.
  destruct (heuristic_detections_are_accepted_windows detected_capture self' Hscan)
    as [Hsound _].
  destruct (Hsound k ds tag w) as (Htag & i & anchor & e & _ & _ & _ & _ & Hdet).
  - exact Hk.
  - exact Hd.
  - split; [exact Htag|exact Hdet].
Defined.

(** X7.  After a scan from a fresh checker, every exact detection of the
    registry names 'BackupAgent' and one of the four network sources:
    no other identifier, listed or not, is ever recorded as an exact
    detection. *)
Theorem exact_detections_name_backup_agent (inp : capture) (self' : checker) :
  scan_filesystem inp init = inr self' →
  ∀ k ds tag source ident,
    (k, ds) ∈ detections self' → Det3 tag source ident ∈ ds →
    tag = "exact" ∧ ident = "BackupAgent" ∧ source ∈ net_types.
Proof.
  intros Hscan k ds tag source ident Hk Hd.
  destruct (scan_registry_recorded inp self' Hscan) as [_ Hrec].
  specialize (Hrec k ds _ Hk Hd). by inversion Hrec; subst.
Qed.

Lemma exact_detections_name_backup_agent_witness :
  ∃ self',
    scan_filesystem detected_capture init = inr self'
    ∧ ∀ k ds tag source ident,
        (k, ds) ∈ detections self' → Det3 tag source ident ∈ ds →
        tag = "exact" ∧ ident = "BackupAgent" ∧ source ∈ net_types.
Proof.
  destruct (scan_filesystem detected_capture init) as [e|self'] eqn:Hscan;
    [by vm_compute in Hscan|].
  exists self'. split; [reflexivity|].
  exact (exact_detections_name_backup_agent detected_capture self' Hscan).
Defined.

(** ** Short timelines *)

(** X8.  When the attachment directory is there and the collectors
    leave at most [events_max] events in the timeline, the sliding
    window is never evaluated: the scan returns the checker as the
    collectors left it, and the registry holds exact detections only. *)
Theorem short_timeline_no_heuristics (inp : capture) :
  sms_attachments_isdir inp = true →
  (length (expand_timeline (timeline (collected inp init))) <= events_max)%nat →
  scan_filesystem inp init = inr (collected inp init)
  ∧ ∀ k ds d, (k, ds) ∈ detections (collected inp init) → d ∈ ds →
              ∃ source, d = Det3 "exact" source "BackupAgent".
Proof.
  intros Hdir Hlen. split.
  - unfold scan_filesystem. rewrite Hdir. cbn [negb]. cbv zeta.
    fold (collected inp init). unfold anchor_indices.
    by replace (_ - _)%nat with 0%nat by lia.
  - intros k ds d Hk Hd.
    assert (Hrec : all_keyed (recorded []) (detections (collected inp init))).
    { apply (collect_steps_recorded [] init); [apply collected_collects|].
      by intros ? ? ? ?%elem_of_nil. }
    specialize (Hrec k ds d Hk Hd).
    inversion Hrec as [source Hs|i w anchor e Hi]; subst; [by eexists|].
    by apply elem_of_nil in Hi.
Qed.

Lemma short_timeline_no_heuristics_witness :
  scan_filesystem ten_event_capture init = inr (collected ten_event_capture init).
Proof.
  apply (short_timeline_no_heuristics ten_event_capture); [reflexivity|].
  vm_compute. lia.
Defined.

(** ** An exception inside a collector loop *)

Lemma for_each_app {A : Type} (body : A → checker → exec) l1 l2 self :
  for_each body (l1 ++ l2) self
  = andthen (for_each body l1 self) (for_each body l2).
Proof.
  revert self. induction l1 as [|x l1 IH]; intros self; [done|].
  cbn [app for_each]. destruct (body x self); [apply IH|done].
Qed.

(** X9.  In the loop over the usage database, a row of a listed process
    whose first timestamp is [NULL] raises before anything is appended
    for it, and the exception ends the loop: the checker is as if the
    rows before it were the only rows, whatever the rows after it are. *)
Theorem null_timestamp_hides_later_rows (before after : list db_row) (row : db_row)
    (name : string) (self : checker) :
  row_procname row = Some name →
  in_list name (process_IOCs_exact ++ process_IOCs_implicit) = true →
  row_first_timestamp row = None →
  try_for_each datausage_step (Some (before ++ row :: after)) self
  = try_for_each datausage_step (Some before) self.
Proof.
  intros Hname Hlisted Hnull. cbn [try_for_each]. rewrite for_each_app.
  destruct (for_each datausage_step before self) as [s|s]; [|done].
  cbn [andthen for_each exec_state].
  assert (Hraise : datausage_step row s = Raised s).
  { unfold datausage_step. rewrite Hname, Hnull.
    unfold in_list in Hlisted. rewrite existsb_app in Hlisted.
    fold (in_list name process_IOCs_exact) in Hlisted.
    fold (in_list name process_IOCs_implicit) in Hlisted.
    destruct (in_list name process_IOCs_exact); [done|].
    cbn [orb] in Hlisted. by rewrite Hlisted. }
  by rewrite Hraise.
Qed.

Lemma null_timestamp_hides_later_rows_witness :
  try_for_each datausage_step (Some null_first_rows) init = init.
Proof.
  apply (null_timestamp_hides_later_rows [] _ _ "nehelper" init);
    reflexivity.
Defined.

(** ** The walk of the attachment store *)

Lemma count_char_app c a b :
  PyStr.count_char c (a +:+ b) = (PyStr.count_char c a + PyStr.count_char c b)%nat.
Proof.
  induction a as [|x a IH]; [done|].
  change (String x a +:+ b) with (String x (a +:+ b)).
  cbn [PyStr.count_char]. rewrite IH. lia.
Qed.

(** X10.  A directory whose relative path has three slashes or more is
    skipped by [_check_sms_attachments].  Every path that starts with
    'private/var/mobile/Library/SMS/Attachments' has at least five, so a
    walk that yields only such paths leaves the checker as it was: no
    event of the attachment store reaches the timeline. *)
Theorem attachment_walk_adds_nothing (walk : list walk_entry) (self : checker) :
  (∀ e, e ∈ walk →
        ∃ rest, walk_rel_path e
                = "private/var/mobile/Library/SMS/Attachments" +:+ rest) →
  _check_sms_attachments walk self = self.
Proof.
  unfold _check_sms_attachments. revert self.
  induction walk as [|e walk IH]; intros self Hall; [done|].
  cbn [foldl]. destruct (Hall e) as [rest Hrest]; [left|].
  assert (Hn : (3 <=? PyStr.count_char "/" (walk_rel_path e))%nat = true).
  { apply Nat.leb_le. rewrite Hrest, count_char_app.
    change (PyStr.count_char "/" "private/var/mobile/Library/SMS/Attachments")
      with 5%nat. lia. }
  rewrite Hn. apply IH. intros e' He'. apply Hall. by right.
Qed.

Lemma attachment_walk_adds_nothing_witness :
  _check_sms_attachments attachment_walk init = init.
Proof.
  apply (attachment_walk_adds_nothing attachment_walk init).
  intros e He. unfold attachment_walk in He.
  apply elem_of_cons in He as [->|He]; [by exists ""|].
  apply elem_of_cons in He as [->|He]; [by exists "/ff"|].
  apply elem_of_cons in He as [->|He]; [by exists "/ff/15"|].
  by apply elem_of_nil in He.
Defined.

(** ** [main]: the report and the exit status *)

Lemma collect_steps_distinct self self' :
  rtc collect_step self self' →
  keys_distinct (detections self) → keys_distinct (detections self').
Proof.
  induction 1 as [s|s1 s2 s3 Hstep _ IH]; [done|]. intros H. apply IH.
  destruct Hstep as [t e s He|t source s Hs]; [done|].
  by apply append_map_keys_distinct.
Qed.

Lemma heuristic_steps_distinct expanded self self' :
  rtc (heuristic_step expanded) self self' →
  keys_distinct (detections self) → keys_distinct (detections self').
Proof.
  induction 1 as [s|s1 s2 s3 Hstep _ IH]; [done|]. intros H. apply IH.
  destruct Hstep. by apply append_map_keys_distinct.
Qed.

Lemma scan_registry_distinct inp self' :
  scan_filesystem inp init = inr self' → keys_distinct (detections self').
Proof.
  intros Hscan.
  apply (heuristic_steps_distinct _ _ _ (scan_filesystem_collected _ _ _ Hscan)).
  by apply (collect_steps_distinct init); [apply collected_collects|].
Qed.

(** Reading a dictionary key by key, in sorted order, visits every
    stored item once. *)
Lemma length_sorted_items {V : Type} (m : list (Q * list V)) :
  keys_distinct m →
  length (flat_map (λ k, getitem k m) (sorted_keys m)) = registry_size m.
Proof.
  intros Hd. rewrite (sorted_keys_perm m), flat_map_fmap.
  rewrite (flat_map_ext_elem _ snd).
  - unfold registry_size. induction m as [|[k vs] m IH]; [done|].
    cbn [flat_map snd fmap list_fmap sum_list_with]. rewrite length_app.
    cbn [keys_distinct] in Hd. destruct Hd as [_ Hd]. by rewrite (IH Hd).
  - intros [k vs] Hin. by apply getitem_entry.
Qed.

Lemma report_key_renders f k dt ds out :
  f k = Some dt → Forall renderable ds →
  ∃ lines, report_key f k ds out = (out ++ lines, None)
           ∧ length lines = length ds
           ∧ Forall (λ l, is_report_line l = true) lines.
Proof.
  intros Hdt Hds. revert out. induction Hds as [|d ds Hd _ IH]; intros out.
  - exists []. by rewrite app_nil_r.
  - cbn [report_key]. rewrite Hdt.
    destruct (renderable_to_string d Hd) as [Htag [s ->]].
    destruct Htag as [->| ->].
    + change (String.eqb "exact" "exact") with true. cbv iota.
      destruct (IH (out ++ [Detected dt s])) as (lines & -> & Hlen & Hall).
      exists (Detected dt s :: lines). rewrite <- (assoc_L (++)).
      split; [done|]. split; [simpl; lia|by constructor].
    + change (String.eqb "heuristics" "exact") with false.
      change (String.eqb "heuristics" "heuristics") with true. cbv iota.
      destruct (IH (out ++ [Suspicion dt s])) as (lines & -> & Hlen & Hall).
      exists (Suspicion dt s :: lines). rewrite <- (assoc_L (++)).
      split; [done|]. split; [simpl; lia|by constructor].
Qed.

Lemma report_keys_renders f results keys out :
  (∀ k, k ∈ keys → is_Some (f k)) → all_entries renderable results →
  ∃ lines, report_keys f results keys out = (out ++ lines, None)
           ∧ length lines = length (flat_map (λ k, getitem k results) keys)
           ∧ Forall (λ l, is_report_line l = true) lines.
Proof.
  intros Hf Hr. revert out.
  induction keys as [|k keys IH]; intros out.
  - exists []. by rewrite app_nil_r.
  - cbn [report_keys flat_map]. destruct (Hf k) as [dt Hdt]; [left|].
    destruct (report_key_renders f k dt (getitem k results) out Hdt)
      as (l1 & -> & Hlen1 & Hall1); [by apply all_entries_getitem|].
    destruct (IH (λ k' Hk', Hf k' (list_elem_of_further _ _ _ Hk')) (out ++ l1))
      as (l2 & -> & Hlen2 & Hall2).
    exists (l1 ++ l2). rewrite <- (assoc_L (++)). split; [done|].
    split; [rewrite !length_app; lia|by apply Forall_app].
Qed.


Lemma elem_of_sorted_keys {V : Type} (m : list (Q * list V)) k :
  k ∈ sorted_keys m ↔ ∃ vs, (k, vs) ∈ m.
Proof.
  rewrite sorted_keys_perm, list_elem_of_fmap. split.
  - intros ([k' vs] & -> & Hin). by exists vs.
  - intros [vs Hin]. by exists (k, vs).
Qed.





Lemma filter_report_lines lines :
  Forall (λ l, is_report_line l = true) lines →
  length (List.filter is_report_line lines) = length lines.
Proof.
  intros H. rewrite filter_keep_all; [done|].
  intros l Hl. by apply (proj1 (Forall_forall _ _) H).
Qed.

(** After a scan that returned, [main] reports every entry of the
    registry and exits, provided the clock accepts every key of the
    registry. *)
Lemma main_reports fromtimestamp inv prog root_path checker :
  argv inv = [prog; root_path] →
  root_isdir inv = true →
  scan_filesystem (root_capture inv) init = inr checker →
  (∀ k ds, (k, ds) ∈ detections checker → is_Some (fromtimestamp k)) →
  ∃ out,
    main fromtimestamp inv
    = (out, if (0 <? length (detections checker))%nat
            then SysExit 2 else SysExit 0)
    ∧ length (List.filter is_report_line out)
      = registry_size (detections checker).
Proof.
  intros Hargv Hdir Hscan Hclock.
  unfold main. rewrite Hargv. cbn [length Nat.eqb lookup list_lookup].
  rewrite Hdir, Hscan. cbn [negb]. cbv zeta.
  set (prelude := _ ++ [ScanningBanner root_path]).
  assert (Hprelude : List.filter is_report_line prelude = []).
  { subst prelude. by destruct (missing_dirs inv). }
  destruct (0 <? length (detections checker))%nat eqn:Hlen.
  - destruct (report_keys_renders fromtimestamp (detections checker)
                (sorted_keys (detections checker)) (prelude ++ [TracesHeader]))
      as (lines & -> & Hcount & Hall).
    { intros k [ds Hk]%elem_of_sorted_keys. by apply (Hclock k ds). }
    { assert (Hinv : scan_invariant checker).
      { eapply scan_filesystem_invariant; [|exact Hscan]. by split; constructor. }
      apply Hinv. }
    eexists. split; [done|].
    rewrite !List.filter_app, Hprelude. cbn [List.filter is_report_line app].
    rewrite (filter_report_lines lines Hall), Hcount.
    apply length_sorted_items. by apply (scan_registry_distinct (root_capture inv)).
  - eexists. split; [done|].
    rewrite List.filter_app, Hprelude. apply Nat.ltb_ge in Hlen.
    destruct (detections checker); [done|simpl in Hlen; lia].
Qed.


(** C10, as stated, fails.  The registry of [far_future_invocation]
    holds two exact detections, one of them under the timestamp
    [978307200.0 + 1e12].  [datetime.fromtimestamp] raises on it, [main]
    does not catch the exception, and that entry is never printed. *)
Lemma reporter_fails_counterexample :
  reporter_fails far_future_invocation
  ∧ scan_filesystem (root_capture far_future_invocation) init
    = inr {| timeline := [];
             detections :=
               [ (1000978307200%Q, [Det3 "exact" "NetFirst" "BackupAgent"]);
                 (1678307200%Q, [Det3 "exact" "NetTimestamp" "BackupAgent"]) ] |}.
Proof.
  split; [|by vm_compute].
  intros f Hrej.
  assert (Hfar : f 1000978307200%Q = None) by (apply Hrej; by vm_compute).
  destruct (main f far_future_invocation) as [out st] eqn:Hmain.
  exists {| timeline := [];
            detections :=
              [ (1000978307200%Q, [Det3 "exact" "NetFirst" "BackupAgent"]);
                (1678307200%Q, [Det3 "exact" "NetTimestamp" "BackupAgent"]) ] |},
    out.
  split; [by vm_compute|].
  vm_compute in Hmain.
  destruct (f 1678307200%Q) as [dt|]; rewrite ?Hfar in Hmain;
    injection Hmain as <- <-; (split; [reflexivity|vm_compute; lia]).
Qed.

(** C10, amended.  After a scan from a fresh checker, every detection
    held by the registry is tagged 'exact' or 'heuristics' and
    [detection_to_string] returns a string for it; for a detection with
    any other tag [detection_to_string] falls through and returns no
    value.  The reporter renders every entry, one line each, and exits,
    provided [datetime.fromtimestamp] accepts every key of the
    registry. *)
Theorem registry_entries_renderable (inp : capture) :
  (sms_attachments_isdir inp = true →
   ∃ self', scan_filesystem inp init = inr self')
  ∧ (∀ self' k ds d,
       scan_filesystem inp init = inr self' →
       (k, ds) ∈ detections self' → d ∈ ds →
       (det_tag d = "exact" ∨ det_tag d = "heuristics")
       ∧ ∃ s, detection_to_string d = FmtStr s)
  ∧ (∀ d, det_tag d ≠ "exact" → det_tag d ≠ "heuristics" →
          detection_to_string d = FmtNone)
  ∧ (∀ fromtimestamp prog root_path dirs self',
       scan_filesystem inp init = inr self' →
       (∀ k ds, (k, ds) ∈ detections self' → is_Some (fromtimestamp k)) →
       ∃ out code,
         main fromtimestamp
           {| argv := [prog; root_path]; root_isdir := true;
              missing_dirs := dirs; root_capture := inp |}
         = (out, SysExit code)
         ∧ length (List.filter is_report_line out)
           = registry_size (detections self')).
Proof.
  split; [apply scan_filesystem_returns|]. split; [|split].
  - intros self' k ds d Hscan Hk Hd.
    assert (Hinv : scan_invariant self').
    { eapply scan_filesystem_invariant; [|exact Hscan]. by split; constructor. }
    destruct Hinv as [_ Hdets]. apply renderable_to_string.
    pose proof (proj1 (Forall_forall _ _) Hdets (k, ds) Hk) as Hds.
    by apply (proj1 (Forall_forall _ _) Hds d).
  - intros d Hexact Hheur. unfold detection_to_string.
    apply String.eqb_neq in Hexact, Hheur. by rewrite Hexact, Hheur.
  - intros f prog root_path dirs self' Hscan Hclock.
    destruct (main_reports f
                {| argv := [prog; root_path]; root_isdir := true;
                   missing_dirs := dirs; root_capture := inp |}
                prog root_path self') as (out & Hmain & Hcount); try done.
    exists out, (if (0 <? length (detections self'))%nat then 2 else 0)%Z.
    split; [|exact Hcount].
    rewrite Hmain. by destruct (0 <? _)%nat.
Qed.

Lemma registry_entries_renderable_witness :
  ∃ self',
    scan_filesystem detected_capture init = inr self'
    ∧ (∀ k ds d, (k, ds) ∈ detections self' → d ∈ ds →
                 (det_tag d = "exact" ∨ det_tag d = "heuristics")
                 ∧ ∃ s, detection_to_string d = FmtStr s)
    ∧ ∃ out code,
        main sample_clock sample_invocation = (out, SysExit code)
        ∧ length (List.filter is_report_line out)
          = registry_size (detections self').
Proof.
  destruct (registry_entries_renderable detected_capture)
    as (Hret & Hall & _ & Hmain).
  destruct (Hret eq_refl) as [self' Hscan].
  exists self'. split; [exact Hscan|]. split.
  - intros k ds d. exact (Hall self' k ds d Hscan).
  - apply (Hmain sample_clock "ios_triangulation_detector" "/mnt/image"
             ["private/var/containers"] self' Hscan).
    intros k ds _. by eexists.
Defined.



(** X12.  When [main] is called without an argument, or its argument is
    not a directory, or the attachment directory is missing below it,
    [main] prints a message and returns: no report line is printed and
    [sys.exit] is not called, so the failure is not told apart from a
    clean scan by a non-zero exit status. *)
Theorem main_failure_returns (fromtimestamp : Q → option string) (inv : invocation)
    (prog : string) (rest : list string) :
  argv inv = prog :: rest →
  rest = [] ∨ root_isdir inv = false
  ∨ sms_attachments_isdir (root_capture inv) = false →
  ∃ out, main fromtimestamp inv = (out, Returns)
         ∧ List.filter is_report_line out = [].
Proof.
  intros Hargv Hfail. unfold main. rewrite Hargv.
  destruct rest as [|root_path rest].
  { by exists [Usage]. }
  cbn [length Nat.eqb lookup list_lookup].
  destruct Hfail as [?|[Hdir|Hsms]]; [done| |].
  - rewrite Hdir. by exists [NotADirectory root_path].
  - destruct (root_isdir inv); [|by exists [NotADirectory root_path]].
    cbn [negb]. cbv zeta. unfold scan_filesystem. rewrite Hsms. cbn [negb].
    eexists. split; [done|]. by destruct (missing_dirs inv).
Qed.

Lemma main_failure_returns_witness :
  ∃ out,
    main sample_clock
      {| argv := ["ios_triangulation_detector"; "/mnt/image"];
         root_isdir := true; missing_dirs := [];
         root_capture :=
           {| sms_attachments_isdir := false; sms_walk := []; system_plists := [];
              osanalytics_baseline := None; datausage_rows := None;
              locationd_clients := None |} |}
    = (out, Returns)
    ∧ List.filter is_report_line out = [].
Proof.
  apply (main_failure_returns sample_clock _ "ios_triangulation_detector" ["/mnt/image"]);
    [reflexivity|]. right. right. reflexivity.
Defined.

(** ** What the collectors leave in the timeline *)


